(** * bm: link-health classification and partition reconciliation

    A shallow embedding of [simple-bm.go]: the bookmark record, the Redis
    keyspace the program reads and writes, the URL health probe, the two
    bounded concurrent probers, the deduplicator, the partition rewrite and
    the [dead] sub-commands, followed by the properties of the
    specification, each proved or refuted on these definitions. *)

From stdpp Require Import base gmap sets list strings sorting.
From Stdlib Require Import ZArith Lia Ascii.

Set Warnings "-clear-no-such-hyp".

Open Scope string_scope.
Open Scope list_scope.
Open Scope Z_scope.

(** ** Data model *)

(** [type Bookmark struct]: the field order of the source. [Tags] is a
    slice, [CreatedAt] and [UpdatedAt] are [int64] values. *)
Record Bookmark := mkBookmark {
  URL : string;
  Title : string;
  Description : string;
  Tags : list string;
  CreatedAt : Z;
  UpdatedAt : Z;
  ID : string;
  Status : string
}.

(** [type DuplicateInfo struct]. *)
Record DuplicateInfo := mkDuplicateInfo {
  DupURL : string;
  DupCount : nat
}.

(** Go [error] values the commands can return: a failed Redis command (a
    connection failure or a WRONGTYPE reply) and [cli.Exit(msg, code)]. *)
Inductive error :=
  | ConnError
  | WrongType
  | ExitError (msg : string) (code : Z).

(** A Go result pair [(value, err)] with [err] checked by the caller. *)
Inductive result (A : Type) :=
  | Ok (a : A)
  | Error (e : error).
Arguments Ok {A} a.
Arguments Error {A} e.

(** [encoding/json] on [Bookmark]: [json.Marshal] never fails on this
    struct (the source drops its error), [json.Unmarshal] may. *)
Class Codec := {
  json_Marshal : Bookmark → string;
  json_Unmarshal : string → option Bookmark
}.

(** ** The Redis keyspace *)

Definition RedisBookmarksKey : string := "bookmarks:index".
Definition RedisURLSetKey : string := "bookmarks:urls".
Definition RedisBookmarksActiveKey : string := "bookmarks:active".
Definition RedisBookmarksDeadKey : string := "bookmarks:dead".
Definition RedisURLSetActive : string := "bookmarks:urls:active".
Definition RedisURLSetDead : string := "bookmarks:urls:dead".

(** A key holds a sorted set, kept as the list of (score, member) pairs in
    the order ZRANGE returns them, or a plain set. *)
Inductive rvalue :=
  | RZSet (z : list (Z * string))
  | RSet (s : gset string).

Abbreviation Store := (gmap string rvalue).

(** [float64(x)] for an [int64] [x], as the integer the resulting double
    equals: [x] rounded to 53 significant bits, ties to even. *)
Definition float64_of_int64 (x : Z) : Z :=
  let a := Z.abs x in
  let e := Z.log2 a - 52 in
  if e <=? 0 then x
  else
    let q := a / 2 ^ e in
    let r := a mod 2 ^ e in
    let half := 2 ^ (e - 1) in
    let q' := if r <? half then q
              else if half <? r then q + 1
              else if Z.even q then q else q + 1 in
    Z.sgn x * (q' * 2 ^ e).

(** The order of a sorted set: by score, ties by member bytes. *)
Definition zentry_ltb (p q : Z * string) : bool :=
  (p.1 <? q.1) || ((p.1 =? q.1) && String.ltb p.2 q.2).

Fixpoint zinsert (p : Z * string) (l : list (Z * string)) : list (Z * string) :=
  match l with
  | [] => [p]
  | q :: l' => if zentry_ltb p q then p :: q :: l' else q :: zinsert p l'
  end.

Definition zremove (m : string) (l : list (Z * string)) : list (Z * string) :=
  filter (λ q, q.2 ≠ m) l.

(** ZADD key score member on the value of a sorted set: a member already
    present takes the new score. *)
Definition zupsert (score : Z) (m : string) (l : list (Z * string)) : list (Z * string) :=
  zinsert (score, m) (zremove m l).

(** The effect of each command on the keyspace, with its reply. A command
    on a key of the other kind is refused and changes nothing. *)
Definition store_ZRange (key : string) (s : Store) : result (list (Z * string)) :=
  match s !! key with
  | None => Ok []
  | Some (RZSet z) => Ok z
  | Some (RSet _) => Error WrongType
  end.

Definition store_ZAdd (key : string) (score : Z) (m : string) (s : Store) : result unit * Store :=
  match s !! key with
  | None => (Ok (), <[key := RZSet [(score, m)]]> s)
  | Some (RZSet z) => (Ok (), <[key := RZSet (zupsert score m z)]> s)
  | Some (RSet _) => (Error WrongType, s)
  end.

Definition store_SAdd (key : string) (v : string) (s : Store) : result unit * Store :=
  match s !! key with
  | None => (Ok (), <[key := RSet {[v]}]> s)
  | Some (RSet vs) => (Ok (), <[key := RSet ({[v]} ∪ vs)]> s)
  | Some (RZSet _) => (Error WrongType, s)
  end.

(** SREM drops the key when its last member goes. *)
Definition store_SRem (key : string) (v : string) (s : Store) : result unit * Store :=
  match s !! key with
  | None => (Ok (), s)
  | Some (RSet vs) =>
      let vs' := vs ∖ {[v]} in
      (Ok (), if decide (vs' = ∅) then delete key s else <[key := RSet vs']> s)
  | Some (RZSet _) => (Error WrongType, s)
  end.

Definition store_Del (key : string) (s : Store) : result unit * Store :=
  (Ok (), delete key s).

(** ** The process state

    The program runs one command after the other against the server. The
    state carries the keyspace and the number of commands sent so far;
    [faults n] tells whether the [n]-th command of the run is lost to a
    connection failure, in which case it has no effect. *)
Record State := mkState {
  store : Store;
  clock : nat
}.

Definition M (A : Type) : Type := State → A * State.

Definition st_ret {A} (a : A) : M A := λ st, (a, st).
Definition st_bind {A B} (m : M A) (f : A → M B) : M B :=
  λ st, let '(a, st') := m st in f a st'.

Declare Scope go_scope.
Delimit Scope go_scope with go.
Notation "'let*' x ':=' m 'in' k" := (st_bind m (λ x, k))
  (at level 10, x pattern, m at level 100, k at level 200) : go_scope.
Notation "'run' m 'in' k" := (st_bind m (λ _, k))
  (at level 10, m at level 100, k at level 200) : go_scope.
Open Scope go_scope.

Section Redis.
Variable faults : nat → bool.

Definition redis_read {A} (f : Store → result A) : M (result A) :=
  λ st,
    let st' := mkState (store st) (S (clock st)) in
    if faults (clock st) then (Error ConnError, st') else (f (store st), st').

Definition redis_write (f : Store → result unit * Store) : M (result unit) :=
  λ st,
    if faults (clock st) then (Error ConnError, mkState (store st) (S (clock st)))
    else let '(r, s') := f (store st) in (r, mkState s' (S (clock st))).

Definition ZRangeWithScores (key : string) : M (result (list (Z * string))) :=
  redis_read (store_ZRange key).
Definition ZAdd (key : string) (score : Z) (m : string) : M (result unit) :=
  redis_write (store_ZAdd key score m).
Definition SAdd (key v : string) : M (result unit) :=
  redis_write (store_SAdd key v).
Definition SRem (key v : string) : M (result unit) :=
  redis_write (store_SRem key v).
Definition Del (key : string) : M (result unit) :=
  redis_write (store_Del key).
End Redis.

(** ** Reading an index *)

Section Scan.
Context `{Codec}.
Variable faults : nat → bool.

(** The loop of [getFromZSet] and [getAllBookmarks] over the reply: an
    entry that does not parse is passed over ([continue]). *)
Definition decode_entries (results : list (Z * string)) : list Bookmark :=
  fold_left
    (λ bookmarks z,
       match json_Unmarshal z.2 with
       | None => bookmarks
       | Some bm => bookmarks ++ [bm]
       end)
    results [].

Definition getFromZSet (zkey : string) : M (result (list Bookmark)) :=
  let* r := ZRangeWithScores faults zkey in
  match r with
  | Error err => st_ret (Error err)
  | Ok results => st_ret (Ok (decode_entries results))
  end.

Definition getAllBookmarks : M (result (list Bookmark)) :=
  let* r := ZRangeWithScores faults RedisBookmarksKey in
  match r with
  | Error err => st_ret (Error err)
  | Ok results => st_ret (Ok (decode_entries results))
  end.
End Scan.

(** ** Deduplication *)

(** A Go [map[string]bool] read with the zero value for a missing key. *)
Definition map_get (m : gmap string bool) (k : string) : bool :=
  default false (m !! k).

(** The body of the loop of [removeDuplicates], on the pair of the [seen]
    map and the [unique] slice. *)
Definition dedupe_step (acc : gmap string bool * list Bookmark) (bm : Bookmark)
    : gmap string bool * list Bookmark :=
  if negb (map_get acc.1 (URL bm))
  then (<[URL bm := true]> acc.1, acc.2 ++ [bm])
  else acc.

Definition removeDuplicates (bookmarks : list Bookmark) : list Bookmark :=
  (fold_left dedupe_step bookmarks (∅, [])).2.

(** [findDuplicates]: count per URL, then one report per URL counted more
    than once. Go ranges over the map in no fixed order; the order of
    [map_to_list] stands for one of them. *)
Definition count_urls (bookmarks : list Bookmark) : gmap string nat :=
  fold_left (λ urlCount bm, <[URL bm := S (default 0%nat (urlCount !! URL bm))]> urlCount)
    bookmarks ∅.

Definition findDuplicates (bookmarks : list Bookmark) : list DuplicateInfo :=
  fold_left
    (λ duplicates (e : string * nat),
       if (1 <? e.2)%nat then duplicates ++ [mkDuplicateInfo e.1 e.2] else duplicates)
    (map_to_list (count_urls bookmarks)) [].

(** ** The health probe *)

Record Response := mkResponse {
  StatusCode : Z
}.

Record Request := mkRequest {
  Method : string;
  ReqURL : string;
  Header : list (string * string)
}.

(** [req.Header.Set(key, value)]: the value replaces any earlier one. *)
Definition Header_Set (key value : string) (req : Request) : Request :=
  mkRequest (Method req) (ReqURL req)
    ((key, value) :: filter (λ kv, kv.1 ≠ key) (Header req)).

(** What one probe sees of the network through its [*http.Client]: the
    reply to [client.Head] and to [client.Do], each a Go pair of a response
    pointer (possibly nil) and an error (possibly nil). *)
Record Client := mkClient {
  client_Head : string → option Response * option error;
  client_Do : Request → option Response * option error
}.

(** [net/http] and [net/url]: whether the URL of a new request parses. *)
Class NetHttp := {
  url_Parse_ok : string → bool
}.

Definition MethodGet : string := "GET".

(** [http.NewRequest(method, url, nil)] for a valid method: the request,
    or an error when the URL does not parse. *)
Definition http_NewRequest `{NetHttp} (method url : string) : option Request :=
  if url_Parse_ok url then Some (mkRequest method url []) else None.

(** [urlHealthy]. *)
Definition urlHealthy `{NetHttp} (client : Client) (rawURL : string) : bool :=
  let head_ok :=
    match client_Head client rawURL with
    | (Some resp, None) => StatusCode resp <? 400
    | _ => false
    end in
  if head_ok then true
  else
    match http_NewRequest MethodGet rawURL with
    | None => false
    | Some req =>
        let req := Header_Set "Range" "bytes=0-0" req in
        match client_Do client req with
        | (Some resp, None) => StatusCode resp <? 400
        | _ => false
        end
    end.

(** ** The bounded concurrent probers

    Each record gets a goroutine of its own, which probes and then records
    its outcome. The goroutines finish in an order the scheduler and the
    network decide: [completion_order choices pending] is that order, the
    scheduler picking with each choice one of the goroutines still
    pending. Every order of the goroutines arises from some [choices]; the
    semaphore only rules orders out. *)
Fixpoint completion_order (fuel : nat) (choices : list nat) (pending : list nat) : list nat :=
  match fuel with
  | O => []
  | S fuel' =>
      match pending with
      | [] => []
      | first :: _ =>
          let c := (hd 0 choices mod length pending)%nat in
          nth c pending first :: completion_order fuel' (tl choices) (delete c pending)
      end
  end.

Definition schedule (choices : list nat) (n : nat) : list nat :=
  completion_order n choices (seq 0 n).

(** [make(chan struct{}, concurrency)] panics on a negative size, and the
    first [sem <- struct{}{}] on a channel of size 0 never finds a
    receiver: in both cases the prober does not return. *)
Definition prober_starts (concurrency : Z) (n : nat) : bool :=
  negb (concurrency <? 0) && negb ((concurrency =? 0) && negb (n =? 0)%nat).

Section Probers.
Context `{NetHttp}.
(** [net timeout i]: the client as the probe of the record at position
    [i] finds it, for a client built with [Timeout: timeout]. *)
Variable net : Z → nat → Client.
Variable choices : list nat.

(** The goroutine of [checkDeadLinks] for the record at position [i]:
    an unhealthy record is appended under the mutex. *)
Definition check_worker (timeout : Z) (bookmarks : list Bookmark)
    (deadLinks : list Bookmark) (i : nat) : list Bookmark :=
  match bookmarks !! i with
  | Some b => if negb (urlHealthy (net timeout i) (URL b)) then deadLinks ++ [b] else deadLinks
  | None => deadLinks
  end.

Definition checkDeadLinks (bookmarks : list Bookmark) (concurrency timeout : Z)
    : option (list Bookmark) :=
  if prober_starts concurrency (length bookmarks)
  then Some (fold_left (check_worker timeout bookmarks)
               (schedule choices (length bookmarks)) [])
  else None.

(** The goroutine of [removeDeadLinks] for position [i]: [keep[i] = true]
    when the probe succeeds. *)
Definition keep_worker (timeout : Z) (bookmarks : list Bookmark)
    (keep : list bool) (i : nat) : list bool :=
  match bookmarks !! i with
  | Some bm => if urlHealthy (net timeout i) (URL bm) then <[i := true]> keep else keep
  | None => keep
  end.

(** The final loop of [removeDeadLinks] over [keep]. *)
Definition collect_kept (bookmarks : list Bookmark) (keep : list bool) : list Bookmark :=
  fold_left
    (λ activeBookmarks (ik : nat * bool),
       if ik.2 then
         match bookmarks !! ik.1 with
         | Some bm => activeBookmarks ++ [bm]
         | None => activeBookmarks
         end
       else activeBookmarks)
    (zip (seq 0 (length keep)) keep) [].

Definition removeDeadLinks (bookmarks : list Bookmark) (concurrency timeout : Z)
    : option (list Bookmark) :=
  if prober_starts concurrency (length bookmarks)
  then
    let keep := fold_left (keep_worker timeout bookmarks)
                  (schedule choices (length bookmarks))
                  (replicate (length bookmarks) false) in
    Some (collect_kept bookmarks keep)
  else None.
End Probers.

(** ** The commands *)

(** The part of [*cli.Context] the commands read: the flags and the
    positional arguments. *)
Record Context := mkContext {
  flag_concurrency : Z;
  flag_timeout : Z;
  flag_include_dead : bool;
  flag_limit : Z;
  flag_q : string;
  flag_tag : list string;
  Args : list string
}.

(** How a command ends: it returns nil, it returns an error, or the
    process never gets to return (see [prober_starts]). *)
Inductive outcome (A : Type) :=
  | Done (a : A)
  | Failed (err : error)
  | NoReturn.
Arguments Done {A} a.
Arguments Failed {A} err.
Arguments NoReturn {A}.

(** The numbers [check] and [clean] print. *)
Inductive CheckReport :=
  | NoBookmarksFound
  | Checked (total : nat) (duplicates : list DuplicateInfo) (deadLinks : list Bookmark).

Inductive CleanReport :=
  | NoBookmarksToClean
  | Cleaned (removedDuplicates removedDead remaining : Z).

(** [strings.ToLower], [strings.TrimSpace], [strings.Contains]. *)
Class Strings := {
  strings_ToLower : string → string;
  strings_TrimSpace : string → string;
  strings_Contains : string → string → bool
}.

Fixpoint for_each {A} (l : list A) (body : A → M unit) : M unit :=
  match l with
  | [] => st_ret ()
  | x :: l' => run body x in for_each l' body
  end.

Section Commands.
Context `{Codec, NetHttp, Strings}.
Variable faults : nat → bool.
Variable net : Z → nat → Client.
Variable choices : list nat.

(** One round of the three loops of [saveBookmarksClassified]: the entry
    goes to the index, its URL to the companion set; both replies are
    dropped. *)
Definition put_bookmark (zkey skey : string) (bm : Bookmark) : M unit :=
  let jsonData := json_Marshal bm in
  run ZAdd faults zkey (float64_of_int64 (CreatedAt bm)) jsonData in
  run SAdd faults skey (URL bm) in
  st_ret ().

Definition saveBookmarksClassified (active : list Bookmark) : M (result unit) :=
  let* r := getAllBookmarks faults in
  match r with
  | Error err => st_ret (Error err)
  | Ok all =>
      let activeURL :=
        fold_left (λ (m : gmap string bool) bm, <[URL bm := true]> m) active ∅ in
      let dead :=
        fold_left (λ dead bm, if negb (map_get activeURL (URL bm)) then dead ++ [bm] else dead)
          all [] in
      run Del faults RedisBookmarksActiveKey in
      run Del faults RedisBookmarksDeadKey in
      run Del faults RedisURLSetActive in
      run Del faults RedisURLSetDead in
      run for_each active (put_bookmark RedisBookmarksActiveKey RedisURLSetActive) in
      run for_each dead (put_bookmark RedisBookmarksDeadKey RedisURLSetDead) in
      run Del faults RedisBookmarksKey in
      run Del faults RedisURLSetKey in
      run for_each active (put_bookmark RedisBookmarksKey RedisURLSetKey) in
      st_ret (Ok ())
  end.

Definition checkBookmarks (c : Context) : M (outcome CheckReport) :=
  let* r := getAllBookmarks faults in
  match r with
  | Error err => st_ret (Failed err)
  | Ok bookmarks =>
      if (length bookmarks =? 0)%nat then st_ret (Done NoBookmarksFound)
      else
        let duplicates := findDuplicates bookmarks in
        let concurrency := flag_concurrency c in
        let timeout := flag_timeout c in
        match checkDeadLinks net choices bookmarks concurrency timeout with
        | None => st_ret NoReturn
        | Some deadLinks => st_ret (Done (Checked (length bookmarks) duplicates deadLinks))
        end
  end.

Definition cleanBookmarks (c : Context) : M (outcome CleanReport) :=
  let* r := getAllBookmarks faults in
  match r with
  | Error err => st_ret (Failed err)
  | Ok bookmarks =>
      if (length bookmarks =? 0)%nat then st_ret (Done NoBookmarksToClean)
      else
        let uniqueBookmarks := removeDuplicates bookmarks in
        let concurrency := flag_concurrency c in
        let timeout := flag_timeout c in
        match removeDeadLinks net choices uniqueBookmarks concurrency timeout with
        | None => st_ret NoReturn
        | Some activeBookmarks =>
            let* r := saveBookmarksClassified activeBookmarks in
            match r with
            | Error err => st_ret (Failed err)
            | Ok _ =>
                st_ret (Done (Cleaned
                  (Z.of_nat (length bookmarks) - Z.of_nat (length uniqueBookmarks))
                  (Z.of_nat (length uniqueBookmarks) - Z.of_nat (length activeBookmarks))
                  (Z.of_nat (length activeBookmarks))))
            end
        end
  end.

(** [importBookmarks] only prints. *)
Definition importBookmarks (c : Context) : M (outcome unit) :=
  st_ret (Done ()).

(** [listBookmarks]; the value is the list it prints. *)
Definition listBookmarks (c : Context) : M (outcome (list Bookmark)) :=
  if flag_include_dead c then
    let* r1 := getFromZSet faults RedisBookmarksActiveKey in
    let* r2 := getFromZSet faults RedisBookmarksDeadKey in
    match r1, r2 with
    | Error err1, _ => st_ret (Failed err1)
    | Ok _, Error err2 => st_ret (Failed err2)
    | Ok active, Ok dead => st_ret (Done (active ++ dead))
    end
  else
    let* r := getFromZSet faults RedisBookmarksActiveKey in
    match r with
    | Error err => st_ret (Failed err)
    | Ok bookmarks => st_ret (Done bookmarks)
    end.

Definition filterByQueryTags (items : list Bookmark) (q : string) (tags : list string)
    : list Bookmark :=
  let q := strings_ToLower (strings_TrimSpace q) in
  let wantTags : gset string := list_to_set (strings_ToLower <$> tags) in
  fold_left
    (λ out bm,
       if negb (bool_decide (q = EmptyString))
          && negb (strings_Contains (strings_ToLower (Title bm)) q)
          && negb (strings_Contains (strings_ToLower (Description bm)) q)
       then out
       else if negb (bool_decide (wantTags = ∅))
               && negb (forallb
                          (λ wt, existsb (λ t, bool_decide (strings_ToLower t = wt)) (Tags bm))
                          (elements wantTags))
       then out
       else out ++ [bm])
    items [].

(** A reply that failed leaves the slice nil: both errors of
    [searchBookmarksCmd] are dropped. *)
Definition or_nil (r : result (list Bookmark)) : list Bookmark :=
  match r with
  | Ok l => l
  | Error _ => []
  end.

Definition searchBookmarksCmd (c : Context) : M (outcome (list Bookmark)) :=
  let* r := getFromZSet faults RedisBookmarksActiveKey in
  let active := or_nil r in
  let* pool :=
    (if flag_include_dead c then
       let* r := getFromZSet faults RedisBookmarksDeadKey in
       st_ret (active ++ or_nil r)
     else st_ret active) in
  let filtered := filterByQueryTags pool (flag_q c) (flag_tag c) in
  let limit := flag_limit c in
  let filtered :=
    if (0 <? limit) && (limit <? Z.of_nat (length filtered))
    then take (Z.to_nat limit) filtered
    else filtered in
  st_ret (Done filtered).

Definition deadShowCmd (c : Context) : M (outcome (list Bookmark)) :=
  let* r := getFromZSet faults RedisBookmarksDeadKey in
  match r with
  | Error err => st_ret (Failed err)
  | Ok dead => st_ret (Done dead)
  end.

Definition deadPurgeCmd (c : Context) : M (outcome unit) :=
  run Del faults RedisBookmarksDeadKey in
  run Del faults RedisURLSetDead in
  st_ret (Done ()).

(** The body of [deadReviveCmd] for the entry that matches. *)
Definition revive_entry (bm : Bookmark) : M unit :=
  let jsonData := json_Marshal bm in
  run ZAdd faults RedisBookmarksActiveKey (float64_of_int64 (CreatedAt bm)) jsonData in
  run SAdd faults RedisURLSetActive (URL bm) in
  run SRem faults RedisURLSetDead (URL bm) in
  run ZAdd faults RedisBookmarksKey (float64_of_int64 (CreatedAt bm)) jsonData in
  st_ret ().

(** The loop of [deadReviveCmd] over the dead entries: it returns at the
    first one whose URL is the argument. *)
Fixpoint revive_scan (url : string) (dead : list Bookmark) : M (outcome unit) :=
  match dead with
  | [] => st_ret (Failed (ExitError "url not found in dead list" 1))
  | bm :: dead' =>
      if bool_decide (URL bm = url)
      then run revive_entry bm in st_ret (Done ())
      else revive_scan url dead'
  end.

Definition deadReviveCmd (c : Context) : M (outcome unit) :=
  match Args c with
  | [] => st_ret (Failed (ExitError "missing <url>" 1))
  | url :: _ =>
      let* r := getFromZSet faults RedisBookmarksDeadKey in
      revive_scan url (or_nil r)
  end.
End Commands.

(** ** The semaphore and the wait group

    [checkDeadLinks] and [removeDeadLinks] run the same protocol around
    their probe: the main goroutine, for each record, does [wg.Add(1)],
    sends into [sem] (a channel of capacity [concurrency]) and starts the
    goroutine; the goroutine probes and records, then on its way out
    receives from [sem] and calls [wg.Done()] (the deferred calls, last
    registered first); the main goroutine ends with [wg.Wait()]. The
    interleavings of that protocol, as a transition system. *)
Module Pool.

Inductive phase :=
  | Unspawned
  | Probing
  | Probed
  | Released
  | Exited.

#[global] Instance phase_eq_dec : EqDecision phase.
Proof. solve_decision. Defined.

(** Where the main goroutine stands: in round [i] of the loop before
    [wg.Add(1)], before the send, before the [go] statement; at
    [wg.Wait()]; past it. *)
Inductive mainpc :=
  | AtAdd (i : nat)
  | AtSend (i : nat)
  | AtGo (i : nat)
  | AtWait
  | AtReturn.

Record pool := mkPool {
  pc : mainpc;
  phases : list phase;
  sem : Z;
  wg : Z
}.

Definition round (n i : nat) : mainpc :=
  if (i <? n)%nat then AtAdd i else AtWait.

(** [make(chan struct{}, concurrency)] panics on a negative capacity. *)
Definition init (n : nat) (concurrency : Z) : option pool :=
  if concurrency <? 0 then None
  else Some (mkPool (round n 0) (replicate n Unspawned) 0 0).

Inductive step (n : nat) (concurrency : Z) : pool → pool → Prop :=
  | step_add i ph s w :
      step n concurrency (mkPool (AtAdd i) ph s w) (mkPool (AtSend i) ph s (w + 1))
  | step_send i ph s w :
      s < concurrency →
      step n concurrency (mkPool (AtSend i) ph s w) (mkPool (AtGo i) ph (s + 1) w)
  | step_go i ph s w :
      step n concurrency (mkPool (AtGo i) ph s w)
        (mkPool (round n (S i)) (<[i := Probing]> ph) s w)
  | step_probed j c ph s w :
      ph !! j = Some Probing →
      step n concurrency (mkPool c ph s w) (mkPool c (<[j := Probed]> ph) s w)
  | step_release j c ph s w :
      ph !! j = Some Probed →
      0 < s →
      step n concurrency (mkPool c ph s w) (mkPool c (<[j := Released]> ph) (s - 1) w)
  | step_done j c ph s w :
      ph !! j = Some Released →
      step n concurrency (mkPool c ph s w) (mkPool c (<[j := Exited]> ph) s (w - 1))
  | step_wait ph s :
      step n concurrency (mkPool AtWait ph s 0) (mkPool AtReturn ph s 0).

Definition reachable (n : nat) (concurrency : Z) (st : pool) : Prop :=
  ∃ st0, init n concurrency = Some st0 ∧ rtc (step n concurrency) st0 st.

Definition count (P : phase → bool) (ph : list phase) : Z :=
  Z.of_nat (length (filter (λ p, P p = true) ph)).

(** The probes in flight: the goroutines inside [urlHealthy]. *)
Definition in_flight (st : pool) : Z :=
  count (λ p, bool_decide (p = Probing)) (phases st).

Definition all_completed (st : pool) : Prop :=
  Forall (λ p, p = Exited) (phases st).

End Pool.

(** ** A codec to run the model on

    The flat JSON object [encoding/json] writes for a [Bookmark], with the
    field names of the struct tags; a quote or a backslash inside a string
    is escaped with a backslash, a nil slice is [null]. The decoder reads
    that shape back. The properties below are stated for any codec; this
    one serves to evaluate the commands on concrete stores. *)
Module Json.

Definition dquote : ascii := ascii_of_nat 34.
Definition backslash : ascii := ascii_of_nat 92.

Fixpoint escape (s : string) : string :=
  match s with
  | EmptyString => EmptyString
  | String c s' =>
      if bool_decide (c = dquote) || bool_decide (c = backslash)
      then String backslash (String c (escape s'))
      else String c (escape s')
  end.

Definition quote (s : string) : string :=
  String dquote (escape s +:+ String dquote EmptyString).

Fixpoint digits (fuel : nat) (n : N) (acc : string) : string :=
  match fuel with
  | O => acc
  | S fuel' =>
      let acc := String (Ascii.ascii_of_N (48 + n mod 10)%N) acc in
      if (n <? 10)%N then acc else digits fuel' (n / 10)%N acc
  end.

Definition number (z : Z) : string :=
  let n := Z.to_N (Z.abs z) in
  let d := digits (S (N.to_nat (N.log2 n))) n EmptyString in
  if z <? 0 then String "-"%char d else d.

Fixpoint joined (l : list string) : string :=
  match l with
  | [] => EmptyString
  | [x] => quote x
  | x :: l' => quote x +:+ "," +:+ joined l'
  end.

Definition array (l : list string) : string :=
  match l with
  | [] => "null"
  | _ => "[" +:+ joined l +:+ "]"
  end.

Definition encode (bm : Bookmark) : string :=
  "{" +:+ quote "url" +:+ ":" +:+ quote (URL bm)
  +:+ "," +:+ quote "title" +:+ ":" +:+ quote (Title bm)
  +:+ "," +:+ quote "description" +:+ ":" +:+ quote (Description bm)
  +:+ "," +:+ quote "tags" +:+ ":" +:+ array (Tags bm)
  +:+ "," +:+ quote "created_at" +:+ ":" +:+ number (CreatedAt bm)
  +:+ "," +:+ quote "updated_at" +:+ ":" +:+ number (UpdatedAt bm)
  +:+ "," +:+ quote "id" +:+ ":" +:+ quote (ID bm)
  +:+ "," +:+ quote "status" +:+ ":" +:+ quote (Status bm)
  +:+ "}".

(** [expect p s]: the rest of [s] after its prefix [p]. *)
Fixpoint expect (p s : string) : option string :=
  match p, s with
  | EmptyString, _ => Some s
  | String a p', String b s' => if bool_decide (a = b) then expect p' s' else None
  | String _ _, EmptyString => None
  end.

(** The characters up to the closing quote, escapes undone. *)
Fixpoint until_quote (s : string) : option (string * string) :=
  match s with
  | EmptyString => None
  | String c s' =>
      if bool_decide (c = dquote) then Some (EmptyString, s')
      else if bool_decide (c = backslash) then
        match s' with
        | String e s'' =>
            match until_quote s'' with
            | Some (v, rest) => Some (String e v, rest)
            | None => None
            end
        | EmptyString => None
        end
      else
        match until_quote s' with
        | Some (v, rest) => Some (String c v, rest)
        | None => None
        end
  end.

Definition quoted (s : string) : option (string * string) :=
  s' ← expect (String dquote EmptyString) s; until_quote s'.

Definition digit (c : Ascii.ascii) : option N :=
  let n := Ascii.N_of_ascii c in
  if (48 <=? n)%N && (n <=? 57)%N then Some (n - 48)%N else None.

Fixpoint more_digits (acc : N) (s : string) : N * string :=
  match s with
  | EmptyString => (acc, s)
  | String c s' =>
      match digit c with
      | Some d => more_digits (10 * acc + d)%N s'
      | None => (acc, s)
      end
  end.

Definition natural (s : string) : option (N * string) :=
  match s with
  | EmptyString => None
  | String c s' =>
      match digit c with
      | Some d => Some (more_digits d s')
      | None => None
      end
  end.

Definition integer (s : string) : option (Z * string) :=
  match expect "-" s with
  | Some s' => '(n, rest) ← natural s'; Some (- Z.of_N n, rest)
  | None => '(n, rest) ← natural s; Some (Z.of_N n, rest)
  end.

Fixpoint elements_tail (fuel : nat) (s : string) : option (list string * string) :=
  match fuel with
  | O => None
  | S fuel' =>
      match expect "]" s with
      | Some rest => Some ([], rest)
      | None =>
          s' ← expect "," s;
          '(v, s'') ← quoted s';
          '(vs, rest) ← elements_tail fuel' s'';
          Some (v :: vs, rest)
      end
  end.

Definition strings (s : string) : option (list string * string) :=
  match expect "null" s with
  | Some rest => Some ([], rest)
  | None =>
      s' ← expect "[" s;
      match expect "]" s' with
      | Some rest => Some ([], rest)
      | None =>
          '(v, s'') ← quoted s';
          '(vs, rest) ← elements_tail (String.length s'') s'';
          Some (v :: vs, rest)
      end
  end.

Definition field {A} (sep name : string) (value : string → option (A * string))
    (s : string) : option (A * string) :=
  s ← expect sep s;
  s ← expect (quote name +:+ ":") s;
  value s.

Definition decode (s : string) : option Bookmark :=
  '(url, s) ← field "{" "url" quoted s;
  '(title, s) ← field "," "title" quoted s;
  '(description, s) ← field "," "description" quoted s;
  '(tags, s) ← field "," "tags" strings s;
  '(created_at, s) ← field "," "created_at" integer s;
  '(updated_at, s) ← field "," "updated_at" integer s;
  '(id, s) ← field "," "id" quoted s;
  '(status, s) ← field "," "status" quoted s;
  if bool_decide (s = "}")
  then Some (mkBookmark url title description tags created_at updated_at id status)
  else None.

Definition codec : Codec := {| json_Marshal := encode; json_Unmarshal := decode |}.

End Json.

(** ** Observations on a store *)

(** The members of a set key (SMEMBERS): none when the key is absent. *)
Definition url_set (s : Store) (key : string) : gset string :=
  match s !! key with
  | Some (RSet vs) => vs
  | _ => ∅
  end.

(** The rows of an index key, in ZRANGE order. *)
Definition index_rows (s : Store) (key : string) : list (Z * string) :=
  match s !! key with
  | Some (RZSet z) => z
  | _ => []
  end.

Definition holds_no_set (s : Store) (key : string) : Prop :=
  ∀ vs, s !! key ≠ Some (RSet vs).

Definition holds_no_zset (s : Store) (key : string) : Prop :=
  ∀ z, s !! key ≠ Some (RZSet z).

Definition urls_of (l : list Bookmark) : gset string :=
  list_to_set (URL <$> l).

(** The partition invariant of the specification, on the two membership
    sets, for a run of [clean] that read [input]. *)
Definition partition_invariant (input : list Bookmark) (s : Store) : Prop :=
  url_set s RedisURLSetActive ## url_set s RedisURLSetDead
  ∧ url_set s RedisURLSetActive ∪ url_set s RedisURLSetDead
    = urls_of (removeDuplicates input).

Definition no_faults : nat → bool := λ _, false.

(** ** A concrete run: the end-to-end scenario of the specification *)
Module Scenario.

Definition a1 : Bookmark := mkBookmark "a" EmptyString EmptyString [] 1 0 EmptyString EmptyString.
Definition a2 : Bookmark := mkBookmark "a" EmptyString EmptyString [] 2 0 EmptyString EmptyString.
Definition b3 : Bookmark := mkBookmark "b" EmptyString EmptyString [] 3 0 EmptyString EmptyString.

Definition row (bm : Bookmark) : Z * string :=
  (float64_of_int64 (CreatedAt bm), Json.encode bm).

(** The combined index holds the three records. *)
Definition store0 : Store :=
  {[ RedisBookmarksKey := RZSet [row a1; row a2; row b3] ]}.

Definition st0 : State := mkState store0 0.

#[global] Instance any_url_parses : NetHttp := {| url_Parse_ok := λ _, true |}.

(** The prober: "b" answers 200 to HEAD, anything else answers 404 to
    HEAD and to the ranged GET. *)
Definition fake_client : Client :=
  mkClient
    (λ u, (Some (mkResponse (if bool_decide (u = "b") then 200 else 404)), None))
    (λ req, (Some (mkResponse 404), None)).

Definition fake_net : Z → nat → Client := λ _ _, fake_client.

(** The defaults of the flags: 20 probes in parallel, 8 seconds. *)
Definition ctx : Context :=
  mkContext 20 8000000000 false 50 EmptyString [] [].

(** The connection drops on the third command of the run only (the
    first DEL of the rewrite, after the two reads). *)
Definition third_command_lost : nat → bool := λ n, (n =? 2)%nat.

(** A store where "a" is recorded dead but has come back to the
    combined index. *)
Definition stale_store : Store :=
  {[ RedisBookmarksKey := RZSet [row a1] ]}.

(** The store left by [clean] when every link was dead: the combined
    index is gone, one URL is recorded dead. *)
Definition all_dead_store : Store :=
  <[ RedisBookmarksDeadKey := RZSet [row a1] ]>
    {[ RedisURLSetDead := RSet {["a"]} ]}.

(** A combined index with a row that is no JSON before a good one. *)
Definition dirty_store : Store :=
  {[ RedisBookmarksKey := RZSet [(0, "not json"); row b3] ]}.

(** The store [clean] leaves on [store0]. *)
Definition cleaned_store : Store :=
  <[ RedisBookmarksActiveKey := RZSet [row b3] ]>
  (<[ RedisURLSetActive := RSet {["b"]} ]>
  (<[ RedisBookmarksDeadKey := RZSet [row a1; row a2] ]>
  (<[ RedisURLSetDead := RSet {["a"]} ]>
  (<[ RedisBookmarksKey := RZSet [row b3] ]>
  {[ RedisURLSetKey := RSet {["b"]} ]})))).

(** [bm dead revive a]. *)
Definition revive_ctx : Context :=
  mkContext 20 8000000000 false 50 EmptyString [] ["a"].

(** Two records, one slot: the first probe is in flight and the main
    goroutine is back at the top of its loop. *)
Definition pool_busy : Pool.pool :=
  Pool.mkPool (Pool.AtAdd 1) [Pool.Probing; Pool.Unspawned] 1 1.

(** A combined index without duplicate URLs. *)
Definition distinct_store : Store :=
  {[ RedisBookmarksKey := RZSet [row a1; row b3] ]}.

(** The string functions on ASCII text, to evaluate [search]. *)
Definition lower_char (ch : ascii) : ascii :=
  let n := nat_of_ascii ch in
  if (65 <=? n)%nat && (n <=? 90)%nat then ascii_of_nat (n + 32) else ch.

Fixpoint lower (s : string) : string :=
  match s with
  | EmptyString => EmptyString
  | String ch s' => String (lower_char ch) (lower s')
  end.

Fixpoint trim_left (s : string) : string :=
  match s with
  | String ch s' => if bool_decide (ch = " "%char) then trim_left s' else s
  | EmptyString => EmptyString
  end.

Definition trim (s : string) : string :=
  String.rev (trim_left (String.rev (trim_left s))).

Fixpoint contains (s sub : string) : bool :=
  String.prefix sub s
  || match s with
     | String _ s' => contains s' sub
     | EmptyString => false
     end.

#[global] Instance ascii_strings : Strings :=
  {| strings_ToLower := lower; strings_TrimSpace := trim; strings_Contains := contains |}.

Definition titled (url title : string) (created : Z) : Bookmark :=
  mkBookmark url title EmptyString [] created 0 EmptyString EmptyString.

(** An active index of three titled records, and [bm search --q RED
    --limit 1]. *)
Definition search_store : Store :=
  {[ RedisBookmarksActiveKey :=
       RZSet [row (titled "r" "Redis docs" 1); row (titled "g" "Go blog" 2);
              row (titled "s" "Redis streams" 3)] ]}.

Definition search_ctx : Context :=
  mkContext 20 8000000000 false 1 " RED " [] [].

End Scenario.

(** ** Reference definitions

    What the loops of the source compute, in closed form. *)

(** The result of the loop of [removeDuplicates] from a given [seen] map:
    the records whose URL has not been met yet. *)
Fixpoint first_seen (seen : gmap string bool) (l : list Bookmark) : list Bookmark :=
  match l with
  | [] => []
  | bm :: l' =>
      if map_get seen (URL bm) then first_seen seen l'
      else bm :: first_seen (<[URL bm := true]> seen) l'
  end.

Definition has_url (u : string) (bm : Bookmark) : bool := bool_decide (URL bm = u).


(** The two stages of the probe, as conditions on the replies. *)
Definition answers_below_400 (reply : option Response * option error) : Prop :=
  ∃ resp, reply = (Some resp, None) ∧ StatusCode resp < 400.

(** The request of the second stage: a GET of the URL whose only header is
    [Range: bytes=0-0]. *)
Definition ranged_get (rawURL : string) : Request :=
  mkRequest "GET" rawURL [("Range", "bytes=0-0")].

Definition head_stage (client : Client) (rawURL : string) : Prop :=
  answers_below_400 (client_Head client rawURL).

Definition get_stage `{NetHttp} (client : Client) (rawURL : string) : Prop :=
  url_Parse_ok rawURL = true ∧ answers_below_400 (client_Do client (ranged_get rawURL)).

(** The records a prober finds healthy, with their positions, in the order
    of the input. *)
Definition healthy_at `{NetHttp} (net : Z → nat → Client) (timeout : Z)
    (ib : nat * Bookmark) : bool :=
  urlHealthy (net timeout ib.1) (URL ib.2).

Definition numbered (from : nat) (bookmarks : list Bookmark) : list (nat * Bookmark) :=
  zip (seq from (length bookmarks)) bookmarks.

Definition healthy_in_order `{NetHttp} (net : Z → nat → Client) (timeout : Z)
    (bookmarks : list Bookmark) : list Bookmark :=
  (filter (λ ib, healthy_at net timeout ib = true) (numbered 0 bookmarks)).*2.


(** The outcome of the probe of the record at position [i]. *)
Definition probe_at `{NetHttp} (net : Z → nat → Client) (timeout : Z)
    (bookmarks : list Bookmark) (i : nat) : bool :=
  match bookmarks !! i with
  | Some bm => urlHealthy (net timeout i) (URL bm)
  | None => false
  end.


(** The loop index the main goroutine has reached: the goroutines of the
    records before it have been started, the others not. *)
Definition pool_frontier (n : nat) (c : Pool.mainpc) : nat :=
  match c with
  | Pool.AtAdd i | Pool.AtSend i | Pool.AtGo i => i
  | Pool.AtWait | Pool.AtReturn => n
  end.

(** The token the main goroutine has put into [sem] for a goroutine it has
    not started yet, and the [wg.Add(1)] it has done for it. *)
Definition pool_token (c : Pool.mainpc) : Z :=
  match c with
  | Pool.AtGo _ => 1
  | _ => 0
  end.

Definition pool_added (c : Pool.mainpc) : Z :=
  match c with
  | Pool.AtSend _ | Pool.AtGo _ => 1
  | _ => 0
  end.

Definition is_phase (q p : Pool.phase) : bool := bool_decide (p = q).

Record pool_invariant (n : nat) (concurrency : Z) (st : Pool.pool) : Prop := {
  inv_length : length (Pool.phases st) = n;
  inv_frontier : (pool_frontier n (Pool.pc st) ≤ n)%nat;
  inv_in_loop :
    Pool.pc st ≠ Pool.AtWait → Pool.pc st ≠ Pool.AtReturn →
    (pool_frontier n (Pool.pc st) < n)%nat;
  inv_unspawned : ∀ j,
    Pool.phases st !! j = Some Pool.Unspawned
    ↔ (pool_frontier n (Pool.pc st) ≤ j < n)%nat;
  inv_sem :
    Pool.sem st
    = Pool.count (is_phase Pool.Probing) (Pool.phases st)
      + Pool.count (is_phase Pool.Probed) (Pool.phases st)
      + pool_token (Pool.pc st);
  inv_capacity : Pool.sem st ≤ concurrency;
  inv_wg :
    Pool.wg st
    = Pool.count (is_phase Pool.Probing) (Pool.phases st)
      + Pool.count (is_phase Pool.Probed) (Pool.phases st)
      + Pool.count (is_phase Pool.Released) (Pool.phases st)
      + pool_added (Pool.pc st);
  inv_returned : Pool.pc st = Pool.AtReturn → Pool.all_completed st
}.


(** The effect on the keyspace of one round of a write loop of
    [saveBookmarksClassified] when both commands reach the server, and of
    the whole loop. *)
Definition store_put `{Codec} (zkey skey : string) (s : Store) (bm : Bookmark) : Store :=
  (store_SAdd skey (URL bm)
     (store_ZAdd zkey (float64_of_int64 (CreatedAt bm)) (json_Marshal bm) s).2).2.

Definition store_put_all `{Codec} (zkey skey : string) (bms : list Bookmark) (s : Store) : Store :=
  fold_left (store_put zkey skey) bms s.

(** The records [saveBookmarksClassified] classifies dead: those of the
    full set whose URL is not the URL of an active record. *)
Definition dead_of (active all : list Bookmark) : list Bookmark :=
  filter (λ bm, URL bm ∉ urls_of active) all.

(** The keyspace after a rewrite in which every command reached the
    server. *)
Definition rewritten `{Codec} (active all : list Bookmark) (s : Store) : Store :=
  let s := delete RedisBookmarksActiveKey s in
  let s := delete RedisBookmarksDeadKey s in
  let s := delete RedisURLSetActive s in
  let s := delete RedisURLSetDead s in
  let s := store_put_all RedisBookmarksActiveKey RedisURLSetActive active s in
  let s := store_put_all RedisBookmarksDeadKey RedisURLSetDead (dead_of active all) s in
  let s := delete RedisBookmarksKey s in
  let s := delete RedisURLSetKey s in
  store_put_all RedisBookmarksKey RedisURLSetKey active s.

(** The keyspace after a [dead revive] that found [bm], every command
    having reached the server. *)
Definition revived `{Codec} (bm : Bookmark) (s : Store) : Store :=
  let jsonData := json_Marshal bm in
  let s := (store_ZAdd RedisBookmarksActiveKey (float64_of_int64 (CreatedAt bm)) jsonData s).2 in
  let s := (store_SAdd RedisURLSetActive (URL bm) s).2 in
  let s := (store_SRem RedisURLSetDead (URL bm) s).2 in
  (store_ZAdd RedisBookmarksKey (float64_of_int64 (CreatedAt bm)) jsonData s).2.

(** The number of commands a rewrite sends after its read. *)
Definition rewrite_commands (active dead : list Bookmark) : nat :=
  (4 + 2 * length active + 2 * length dead + 2 + 2 * length active)%nat.

(** What the scan loop makes of one row of the reply. *)
Definition parse_row `{Codec} (z : Z * string) : option Bookmark :=
  json_Unmarshal z.2.


(** How many records carry the URL [u]. *)
Definition occurrences (u : string) (l : list Bookmark) : nat :=
  length (filter (λ bm, URL bm = u) l).

(** The records a prober finds unhealthy, in the order of the input. *)
Definition unhealthy_in_order `{NetHttp} (net : Z → nat → Client) (timeout : Z)
    (bookmarks : list Bookmark) : list Bookmark :=
  (filter (λ ib, ¬ healthy_at net timeout ib = true) (numbered 0 bookmarks)).*2.


(** The row [saveBookmarksClassified] and [dead revive] write for a
    record, and the rows of an index after a write loop over [bms]. *)
Definition row_of `{Codec} (bm : Bookmark) : Z * string :=
  (float64_of_int64 (CreatedAt bm), json_Marshal bm).

Definition rows_after `{Codec} (bms : list Bookmark) (rows : list (Z * string))
    : list (Z * string) :=
  fold_left (λ rows bm, zupsert (row_of bm).1 (row_of bm).2 rows) bms rows.

(** The codec reads back what it wrote, on the records of [bms]. *)
Definition reads_back `{Codec} (bms : list Bookmark) : Prop :=
  Forall (λ bm, json_Unmarshal (json_Marshal bm) = Some bm) bms.


(** [saveBookmarks] (no caller in the program): the combined index and
    its URL set are cleared and refilled; every reply is dropped. *)
Definition saveBookmarks `{Codec} (faults : nat → bool) (bookmarks : list Bookmark)
    : M (result unit) :=
  run Del faults RedisBookmarksKey in
  run Del faults RedisURLSetKey in
  run for_each bookmarks (put_bookmark faults RedisBookmarksKey RedisURLSetKey) in
  st_ret (Ok ()).

(** The test of one item in the loop of [filterByQueryTags], for the
    lowered, trimmed query [q] and the set of lowered tags. *)
Definition query_matches `{Strings} (q : string) (wantTags : gset string)
    (bm : Bookmark) : bool :=
  negb (negb (bool_decide (q = EmptyString))
        && negb (strings_Contains (strings_ToLower (Title bm)) q)
        && negb (strings_Contains (strings_ToLower (Description bm)) q))
  && negb (negb (bool_decide (wantTags = ∅))
           && negb (forallb
                      (λ wt, existsb (λ t, bool_decide (strings_ToLower t = wt)) (Tags bm))
                      (elements wantTags))).


(** The score under which a record is filed. *)
Definition score_of (bm : Bookmark) : Z := float64_of_int64 (CreatedAt bm).

(** * Properties *)

(** ** Reading an index *)

Section ScanFacts.
Context `{Codec}.

Lemma decode_loop_app (rows : list (Z * string)) (acc : list Bookmark) :
  fold_left
    (λ bookmarks z,
       match json_Unmarshal z.2 with
       | None => bookmarks
       | Some bm => bookmarks ++ [bm]
       end) rows acc
  = acc ++ omap parse_row rows.
Proof.
  revert acc. induction rows as [|z rows IH]; intros acc; simpl.
  - by rewrite app_nil_r.
  - rewrite IH. unfold parse_row at 2. destruct (json_Unmarshal z.2); [|done].
    by rewrite <- app_assoc.
Qed.

Lemma decode_entries_omap (rows : list (Z * string)) :
  decode_entries rows = omap parse_row rows.
Proof. unfold decode_entries. by rewrite decode_loop_app. Qed.

Lemma decode_entries_app (rows1 rows2 : list (Z * string)) :
  decode_entries (rows1 ++ rows2) = decode_entries rows1 ++ decode_entries rows2.
Proof. rewrite !decode_entries_omap. apply omap_app. Qed.

Lemma omap_parse_length (rows : list (Z * string)) :
  length (omap parse_row rows)
  = length (filter (λ z, is_Some (json_Unmarshal z.2)) rows).
Proof.
  induction rows as [|z rows IH]; [done|].
  rewrite filter_cons. cbn [omap list_omap]. unfold parse_row at 1.
  destruct (json_Unmarshal z.2) as [bm|] eqn:E.
  - rewrite decide_True by eauto. cbn [length]. by f_equal.
  - rewrite decide_False by (by intros [? ?]). exact IH.
Qed.

Lemma decode_entries_length (rows : list (Z * string)) :
  length (decode_entries rows)
  = length (filter (λ z, is_Some (json_Unmarshal z.2)) rows).
Proof. rewrite decode_entries_omap. apply omap_parse_length. Qed.

Lemma getFromZSet_unfold faults zkey st :
  getFromZSet faults zkey st
  = (match (ZRangeWithScores faults zkey st).1 with
     | Ok rows => Ok (decode_entries rows)
     | Error err => Error err
     end, (ZRangeWithScores faults zkey st).2).
Proof.
  unfold getFromZSet, st_bind.
  destruct (ZRangeWithScores faults zkey st) as [[rows|err] st']; done.
Qed.

Lemma getAllBookmarks_getFromZSet faults :
  getAllBookmarks faults = getFromZSet faults RedisBookmarksKey.
Proof. done. Qed.

Lemma ZRangeWithScores_store faults zkey st :
  store (ZRangeWithScores faults zkey st).2 = store st.
Proof.
  unfold ZRangeWithScores, redis_read. by destruct (faults (clock st)).
Qed.

Lemma getFromZSet_store faults zkey st :
  store (getFromZSet faults zkey st).2 = store st.
Proof. rewrite getFromZSet_unfold. apply ZRangeWithScores_store. Qed.

Lemma getFromZSet_clock faults zkey st :
  clock (getFromZSet faults zkey st).2 = S (clock st).
Proof.
  rewrite getFromZSet_unfold. simpl.
  unfold ZRangeWithScores, redis_read. by destruct (faults (clock st)).
Qed.

(** C8. A full scan of a sorted index passes over every stored entry
    that does not parse_row: whatever the reply to the range command holds,
    the scan returns without an error the records of the entries that
    parse_row, in their order; an entry that does not parse_row contributes
    nothing to the list and nothing to its length. This holds for
    [getFromZSet] on any key and for [getAllBookmarks]. *)
Theorem scan_skips_malformed faults zkey st rows :
  (ZRangeWithScores faults zkey st).1 = Ok rows →
  (getFromZSet faults zkey st).1 = Ok (omap (λ z, json_Unmarshal z.2) rows)
  ∧ (zkey = RedisBookmarksKey →
     (getAllBookmarks faults st).1 = Ok (omap (λ z, json_Unmarshal z.2) rows))
  ∧ length (omap (λ z, json_Unmarshal z.2) rows)
    = length (filter (λ z, is_Some (json_Unmarshal z.2)) rows)
  ∧ (∀ before z after,
       rows = before ++ z :: after →
       json_Unmarshal z.2 = None →
       omap (λ z, json_Unmarshal z.2) rows
       = omap (λ z, json_Unmarshal z.2) (before ++ after)).
Proof.
  intros Hrows.
  assert ((getFromZSet faults zkey st).1 = Ok (omap parse_row rows)) as Hscan.
  { rewrite getFromZSet_unfold. simpl. rewrite Hrows.
    by rewrite decode_entries_omap. }
  split; [exact Hscan|]. split.
  - intros ->. by rewrite getAllBookmarks_getFromZSet.
  - split.
    + rewrite <- decode_entries_omap. apply decode_entries_length.
    + intros before z after -> Hbad.
      rewrite !omap_app. simpl. by rewrite Hbad.
Qed.
End ScanFacts.

(** ** Deduplication *)

Lemma map_get_insert_true (seen : gmap string bool) (u v : string) :
  map_get (<[u := true]> seen) v = bool_decide (u = v) || map_get seen v.
Proof.
  unfold map_get. destruct (decide (u = v)) as [->|Hne].
  - rewrite lookup_insert_eq. by rewrite bool_decide_eq_true_2.
  - rewrite lookup_insert_ne by done. by rewrite bool_decide_eq_false_2.
Qed.

Lemma dedupe_loop (l : list Bookmark) (seen : gmap string bool) (unique : list Bookmark) :
  (fold_left dedupe_step l (seen, unique)).2 = unique ++ first_seen seen l.
Proof.
  revert seen unique. induction l as [|bm l IH]; intros seen unique; simpl.
  - by rewrite app_nil_r.
  - unfold dedupe_step at 2. simpl. destruct (map_get seen (URL bm)); simpl.
    + apply IH.
    + rewrite IH. by rewrite <- app_assoc.
Qed.

Lemma removeDuplicates_first_seen (l : list Bookmark) :
  removeDuplicates l = first_seen ∅ l.
Proof. unfold removeDuplicates. by rewrite dedupe_loop. Qed.

Lemma first_seen_sublist (seen : gmap string bool) (l : list Bookmark) :
  first_seen seen l `sublist_of` l.
Proof.
  revert seen. induction l as [|bm l IH]; intros seen; simpl; [done|].
  destruct (map_get seen (URL bm)).
  - by apply sublist_cons.
  - by apply sublist_skip.
Qed.

Lemma first_seen_fresh (seen : gmap string bool) (l : list Bookmark) (bm : Bookmark) :
  bm ∈ first_seen seen l → map_get seen (URL bm) = false.
Proof.
  revert seen. induction l as [|x l IH]; intros seen; simpl.
  - by intros ?%elem_of_nil.
  - destruct (map_get seen (URL x)) eqn:E.
    + apply IH.
    + intros [->|Hin]%elem_of_cons; [done|].
      apply IH in Hin. rewrite map_get_insert_true in Hin.
      by apply orb_false_iff in Hin as [_ ?].
Qed.

Lemma first_seen_NoDup (seen : gmap string bool) (l : list Bookmark) :
  NoDup (URL <$> first_seen seen l).
Proof.
  revert seen. induction l as [|x l IH]; intros seen; simpl.
  - constructor.
  - destruct (map_get seen (URL x)) eqn:E; [apply IH|].
    rewrite fmap_cons. constructor; [|apply IH].
    intros (bm & Hurl & Hin)%list_elem_of_fmap.
    apply first_seen_fresh in Hin. rewrite map_get_insert_true in Hin.
    apply orb_false_iff in Hin as [Hne _].
    apply bool_decide_eq_false in Hne. by destruct Hne.
Qed.

Lemma first_seen_id (seen : gmap string bool) (l : list Bookmark) :
  NoDup (URL <$> l) →
  (∀ bm, bm ∈ l → map_get seen (URL bm) = false) →
  first_seen seen l = l.
Proof.
  revert seen. induction l as [|x l IH]; intros seen Hnd Hfresh; simpl; [done|].
  rewrite Hfresh by apply list_elem_of_here.
  rewrite fmap_cons in Hnd. apply NoDup_cons in Hnd as [Hx Hnd].
  f_equal. apply IH; [done|].
  intros bm Hin. rewrite map_get_insert_true.
  rewrite Hfresh by by apply list_elem_of_further.
  rewrite bool_decide_eq_false_2; [done|].
  intros Heq. apply Hx. rewrite Heq. apply list_elem_of_fmap. eauto.
Qed.

Lemma first_seen_find (seen : gmap string bool) (l : list Bookmark) (u : string) :
  map_get seen u = false →
  find (has_url u) (first_seen seen l) = find (has_url u) l.
Proof.
  revert seen. induction l as [|x l IH]; intros seen Hu; simpl; [done|].
  unfold has_url at 2.
  destruct (map_get seen (URL x)) eqn:E.
  - rewrite bool_decide_eq_false_2 by (intros Heq; congruence).
    by apply IH.
  - simpl. unfold has_url at 1. case_bool_decide as Heq; [done|].
    apply IH. rewrite map_get_insert_true, Hu.
    by rewrite bool_decide_eq_false_2.
Qed.

Lemma sublist_same_length {A} (l1 l2 : list A) :
  l1 `sublist_of` l2 → length l1 = length l2 → l1 = l2.
Proof.
  induction 1 as [|x l1 l2 Hsub IH|x l1 l2 Hsub IH]; simpl; intros Hlen.
  - done.
  - f_equal. apply IH. lia.
  - apply sublist_length in Hsub. lia.
Qed.

(** C5. [removeDuplicates] is idempotent; its result is never longer than
    its argument, and as long exactly when the URLs of the argument are
    pairwise distinct; it keeps the records in their order (the result is
    a sublist), one per URL, and for each URL the record it keeps is the
    first of the argument with that URL. URLs are compared as strings,
    byte for byte: two records are merged exactly when their URLs are
    equal. *)
Theorem removeDuplicates_first_wins (recs : list Bookmark) :
  removeDuplicates (removeDuplicates recs) = removeDuplicates recs
  ∧ (length (removeDuplicates recs) ≤ length recs)%nat
  ∧ (length (removeDuplicates recs) = length recs ↔ NoDup (URL <$> recs))
  ∧ removeDuplicates recs `sublist_of` recs
  ∧ NoDup (URL <$> removeDuplicates recs)
  ∧ (∀ u, find (has_url u) (removeDuplicates recs) = find (has_url u) recs)
  ∧ (∀ b1 b2, removeDuplicates [b1; b2] = if bool_decide (URL b1 = URL b2) then [b1] else [b1; b2]).
Proof.
  rewrite !removeDuplicates_first_seen.
  assert (first_seen ∅ recs `sublist_of` recs) as Hsub by apply first_seen_sublist.
  assert (NoDup (URL <$> first_seen ∅ recs)) as Hnd by apply first_seen_NoDup.
  split; [|split; [|split; [|split; [|split; [|split]]]]].
  - apply first_seen_id; [done|]. intros bm _. done.
  - by apply sublist_length.
  - split.
    + intros Hlen. by rewrite <- (sublist_same_length _ _ Hsub Hlen).
    + intros Hrecs. f_equal. apply first_seen_id; [done|]. by intros bm _.
  - done.
  - done.
  - intros u. by apply first_seen_find.
  - intros b1 b2. rewrite removeDuplicates_first_seen. simpl.
    unfold map_get at 1. rewrite lookup_empty. simpl.
    rewrite map_get_insert_true. unfold map_get. rewrite lookup_empty. simpl.
    rewrite orb_false_r. by case_bool_decide.
Qed.

(** ** The health probe *)

Section ProbeFacts.
Context `{NetHttp}.

Lemma reply_below_400 (reply : option Response * option error) :
  match reply with
  | (Some resp, None) => StatusCode resp <? 400
  | _ => false
  end = true ↔ answers_below_400 reply.
Proof.
  unfold answers_below_400. split.
  - destruct reply as [[resp|] [err|]]; try done.
    intros Hlt%Z.ltb_lt. eauto.
  - intros (resp & -> & Hlt). by apply Z.ltb_lt.
Qed.

Lemma urlHealthy_stages (client : Client) (rawURL : string) :
  urlHealthy client rawURL = true ↔ head_stage client rawURL ∨ get_stage client rawURL.
Proof.
  unfold urlHealthy, head_stage, get_stage, http_NewRequest.
  pose proof (reply_below_400 (client_Head client rawURL)) as Hhead.
  destruct (match client_Head client rawURL with
            | (Some resp, None) => StatusCode resp <? 400
            | _ => false
            end) eqn:E.
  - split; [|done]. intros _. left. by apply Hhead.
  - assert (¬ answers_below_400 (client_Head client rawURL)) as Hno.
    { intros Hyes%Hhead. done. }
    destruct (url_Parse_ok rawURL) eqn:Hparse.
    + change (Header_Set "Range" "bytes=0-0" (mkRequest MethodGet rawURL []))
        with (ranged_get rawURL).
      rewrite reply_below_400. tauto.
    + tauto.
Qed.

(** C4. The probe answers healthy when HEAD yields a response with a
    status below 400. When HEAD fails or yields 400 or more, it answers
    healthy exactly when the GET carrying [Range: bytes=0-0] yields a
    response with a status below 400. In every other case (an error or
    no response at both stages, a URL no request can be built from) it
    answers unhealthy; the answer is a boolean, never an error. *)
Theorem urlHealthy_two_stage (client : Client) (rawURL : string) :
  (head_stage client rawURL → urlHealthy client rawURL = true)
  ∧ (¬ head_stage client rawURL →
     (urlHealthy client rawURL = true ↔ get_stage client rawURL))
  ∧ (¬ head_stage client rawURL → ¬ get_stage client rawURL →
     urlHealthy client rawURL = false)
  ∧ (url_Parse_ok rawURL = false → ¬ head_stage client rawURL →
     urlHealthy client rawURL = false).
Proof.
  pose proof (urlHealthy_stages client rawURL) as Hiff.
  split; [|split; [|split]].
  - intros Hhead. apply Hiff. by left.
  - intros Hno. rewrite Hiff. tauto.
  - intros Hno Hno'. apply not_true_is_false. rewrite Hiff. tauto.
  - intros Hparse Hno. apply not_true_is_false. rewrite Hiff.
    unfold get_stage. rewrite Hparse. intros [?|[? _]]; [tauto|done].
Qed.
End ProbeFacts.

(** ** The bounded concurrent probers *)

Lemma completion_order_perm (fuel : nat) (choices pending : list nat) :
  (length pending ≤ fuel)%nat →
  completion_order fuel choices pending ≡ₚ pending.
Proof.
  revert choices pending. induction fuel as [|fuel IH]; intros choices pending Hlen.
  - destruct pending; simpl in *; [done|lia].
  - destruct pending as [|first rest]; [done|].
    cbn [completion_order].
    set (pending := first :: rest) in *.
    set (c := (hd 0 choices mod length pending)%nat).
    assert (c < length pending)%nat as Hc.
    { apply Nat.mod_upper_bound. simpl. lia. }
    destruct (lookup_lt_is_Some_2 pending c Hc) as [x Hx].
    rewrite nth_lookup, Hx. simpl.
    etrans; [|symmetry; exact (delete_Permutation pending c x Hx)].
    constructor. apply IH.
    rewrite length_delete by eauto. lia.
Qed.

Lemma schedule_perm (choices : list nat) (n : nat) :
  schedule choices n ≡ₚ seq 0 n.
Proof. apply completion_order_perm. by rewrite length_seq. Qed.

Section ProberFacts.
Context `{NetHttp}.
Variable net : Z → nat → Client.

Lemma keep_worker_length timeout bookmarks keep i :
  length (keep_worker net timeout bookmarks keep i) = length keep.
Proof.
  unfold keep_worker. destruct (bookmarks !! i); [|done].
  destruct (urlHealthy _ _); [|done]. apply length_insert.
Qed.

Lemma keep_worker_lookup timeout bookmarks keep i j b :
  keep !! j = Some b →
  keep_worker net timeout bookmarks keep i !! j
  = Some (b || (bool_decide (i = j) && probe_at net timeout bookmarks i)).
Proof.
  intros Hj. unfold keep_worker, probe_at.
  destruct (bookmarks !! i) as [bm|].
  - destruct (urlHealthy (net timeout i) (URL bm)).
    + destruct (decide (i = j)) as [->|Hne].
      * rewrite list_lookup_insert_eq by (by eapply lookup_lt_Some).
        rewrite bool_decide_eq_true_2 by done. by rewrite orb_true_r.
      * rewrite list_lookup_insert_ne by done.
        rewrite bool_decide_eq_false_2 by done. by rewrite orb_false_r.
    + by rewrite andb_false_r, orb_false_r.
  - by rewrite andb_false_r, orb_false_r.
Qed.

Lemma keep_loop_lookup timeout bookmarks (order : list nat) keep j b :
  keep !! j = Some b →
  fold_left (keep_worker net timeout bookmarks) order keep !! j
  = Some (b || (bool_decide (j ∈ order) && probe_at net timeout bookmarks j)).
Proof.
  revert keep b. induction order as [|i order IH]; intros keep b Hj; cbn [fold_left].
  - rewrite bool_decide_eq_false_2 by apply not_elem_of_nil.
    by rewrite orb_false_r.
  - rewrite (IH _ _ (keep_worker_lookup timeout bookmarks keep i j b Hj)).
    f_equal. destruct (decide (i = j)) as [->|Hne].
    + rewrite (bool_decide_eq_true_2 (j = j)) by done.
      rewrite (bool_decide_eq_true_2 (j ∈ j :: order)) by apply list_elem_of_here.
      by destruct b, (probe_at net timeout bookmarks j), (bool_decide (j ∈ order)).
    + rewrite (bool_decide_eq_false_2 (i = j)) by done.
      rewrite andb_false_l, orb_false_r.
      do 2 f_equal. apply bool_decide_ext. rewrite elem_of_cons.
      split; [by right|]. by intros [?|?].
Qed.

Lemma keep_loop_length timeout bookmarks (order : list nat) keep :
  length (fold_left (keep_worker net timeout bookmarks) order keep) = length keep.
Proof.
  revert keep. induction order as [|i order IH]; intros keep; simpl; [done|].
  by rewrite IH, keep_worker_length.
Qed.

(** Whatever the order in which the goroutines finish, the [keep] array
    ends up holding the outcome of each probe at the position of its
    record. *)
Lemma keep_array_final timeout bookmarks (order : list nat) :
  order ≡ₚ seq 0 (length bookmarks) →
  fold_left (keep_worker net timeout bookmarks) order
    (replicate (length bookmarks) false)
  = probe_at net timeout bookmarks <$> seq 0 (length bookmarks).
Proof.
  intros Hperm. apply list_eq. intros j.
  destruct (decide (j < length bookmarks)%nat) as [Hlt|Hge].
  - rewrite (keep_loop_lookup _ _ _ _ j false)
      by (by apply lookup_replicate_2).
    rewrite list_lookup_fmap, lookup_seq_lt by done. simpl.
    rewrite bool_decide_eq_true_2; [done|].
    rewrite Hperm. apply elem_of_seq. lia.
  - rewrite !lookup_ge_None_2; [done| |].
    + rewrite length_fmap, length_seq. lia.
    + rewrite keep_loop_length, length_replicate. lia.
Qed.

Lemma collect_loop_app (bookmarks : list Bookmark) (l : list (nat * bool)) (acc : list Bookmark) :
  fold_left
    (λ activeBookmarks (ik : nat * bool),
       if ik.2 then
         match bookmarks !! ik.1 with
         | Some bm => activeBookmarks ++ [bm]
         | None => activeBookmarks
         end
       else activeBookmarks) l acc
  = acc ++ flat_map (λ ik : nat * bool,
                       if ik.2 then option_list (bookmarks !! ik.1) else []) l.
Proof.
  revert acc. induction l as [|[i k] l IH]; intros acc; simpl.
  - by rewrite app_nil_r.
  - rewrite IH. destruct k; simpl; [|done].
    destruct (bookmarks !! i); simpl; [|done]. by rewrite <- app_assoc.
Qed.

Lemma collect_kept_suffix timeout (bookmarks before rest : list Bookmark) :
  bookmarks = before ++ rest →
  flat_map (λ ik : nat * bool, if ik.2 then option_list (bookmarks !! ik.1) else [])
    (zip (seq (length before) (length rest))
         (probe_at net timeout bookmarks <$> seq (length before) (length rest)))
  = (filter (λ ib, healthy_at net timeout ib = true) (numbered (length before) rest)).*2.
Proof.
  revert before. induction rest as [|bm rest IH]; intros before Hsplit; [done|].
  assert (bookmarks !! length before = Some bm) as Hbm.
  { rewrite Hsplit. by rewrite list_lookup_middle. }
  unfold numbered. cbn [length seq fmap list_fmap zip zip_with flat_map].
  rewrite filter_cons.
  specialize (IH (before ++ [bm])).
  rewrite length_app in IH. cbn [length] in IH.
  replace (length before + 1)%nat with (S (length before)) in IH by lia.
  unfold numbered in IH.
  rewrite IH by (by rewrite <- app_assoc).
  unfold probe_at at 1. rewrite Hbm. cbn [fst snd].
  change (urlHealthy (net timeout (length before)) (URL bm))
    with (healthy_at net timeout (length before, bm)).
  destruct (healthy_at net timeout (length before, bm)) eqn:E.
  - rewrite decide_True by done. by rewrite Hbm.
  - by rewrite decide_False by done.
Qed.

Lemma collect_kept_healthy timeout bookmarks :
  collect_kept bookmarks (probe_at net timeout bookmarks <$> seq 0 (length bookmarks))
  = healthy_in_order net timeout bookmarks.
Proof.
  unfold collect_kept. rewrite collect_loop_app. simpl.
  rewrite length_fmap, length_seq.
  exact (collect_kept_suffix timeout bookmarks [] bookmarks eq_refl).
Qed.

Lemma removeDeadLinks_returns choices bookmarks concurrency timeout :
  prober_starts concurrency (length bookmarks) = true →
  removeDeadLinks net choices bookmarks concurrency timeout
  = Some (healthy_in_order net timeout bookmarks).
Proof.
  intros Hstart. unfold removeDeadLinks. rewrite Hstart.
  rewrite keep_array_final by apply schedule_perm.
  by rewrite collect_kept_healthy.
Qed.

Lemma prober_starts_pos concurrency n :
  0 < concurrency → prober_starts concurrency n = true.
Proof.
  intros Hpos. unfold prober_starts.
  rewrite (proj2 (Z.ltb_ge _ _)) by lia.
  rewrite (proj2 (Z.eqb_neq _ _)) by lia. done.
Qed.

(** C7. In clean mode the bulk prober returns exactly the records whose
    probe found the URL healthy, in the order of the input. Each
    goroutine writes its outcome into the slot of [keep] at the position
    of its record, so the array at the barrier, and with it the result,
    is the same for every order in which the probes finish. *)
Theorem removeDeadLinks_keeps_input_order choices bookmarks concurrency timeout :
  0 < concurrency →
  removeDeadLinks net choices bookmarks concurrency timeout
  = Some (healthy_in_order net timeout bookmarks)
  ∧ fold_left (keep_worker net timeout bookmarks)
      (schedule choices (length bookmarks)) (replicate (length bookmarks) false)
    = probe_at net timeout bookmarks <$> seq 0 (length bookmarks)
  ∧ (∀ choices',
       removeDeadLinks net choices' bookmarks concurrency timeout
       = removeDeadLinks net choices bookmarks concurrency timeout)
  ∧ healthy_in_order net timeout bookmarks `sublist_of` bookmarks.
Proof.
  intros Hpos. pose proof (prober_starts_pos concurrency (length bookmarks) Hpos) as Hs.
  split; [by apply removeDeadLinks_returns|].
  split; [apply keep_array_final, schedule_perm|].
  split; [intros choices'; by rewrite !removeDeadLinks_returns|].
  unfold healthy_in_order, numbered.
  transitivity ((zip (seq 0 (length bookmarks)) bookmarks).*2).
  - apply fmap_sublist, sublist_filter.
  - rewrite snd_zip; [done|]. by rewrite length_seq.
Qed.
End ProberFacts.

(** ** The semaphore and the wait group *)

Lemma pool_count_nonneg (P : Pool.phase → bool) (ph : list Pool.phase) :
  0 ≤ Pool.count P ph.
Proof. unfold Pool.count. lia. Qed.

Lemma pool_count_cons (P : Pool.phase → bool) (p : Pool.phase) (ph : list Pool.phase) :
  Pool.count P (p :: ph) = (if P p then 1 else 0) + Pool.count P ph.
Proof.
  unfold Pool.count. rewrite filter_cons.
  destruct (P p); [rewrite decide_True by done|rewrite decide_False by done];
    simpl; lia.
Qed.

Lemma pool_count_insert (P : Pool.phase → bool) (ph : list Pool.phase) j a b :
  ph !! j = Some a →
  Pool.count P (<[j := b]> ph)
  = Pool.count P ph - (if P a then 1 else 0) + (if P b then 1 else 0).
Proof.
  revert j. induction ph as [|p ph IH]; intros [|j] Hj; simplify_eq/=.
  - rewrite !pool_count_cons. lia.
  - rewrite !pool_count_cons, (IH j) by done. lia.
Qed.

Lemma pool_count_replicate (P : Pool.phase → bool) (n : nat) (p : Pool.phase) :
  P p = false → Pool.count P (replicate n p) = 0.
Proof.
  intros Hp. induction n as [|n IH]; [done|].
  simpl. rewrite pool_count_cons, Hp. lia.
Qed.

Lemma pool_count_zero (P : Pool.phase → bool) (ph : list Pool.phase) (p : Pool.phase) :
  Pool.count P ph = 0 → p ∈ ph → P p = false.
Proof.
  induction ph as [|q ph IH]; [by intros _ ?%elem_of_nil|].
  rewrite pool_count_cons. pose proof (pool_count_nonneg P ph).
  intros Hz [->|Hin]%elem_of_cons.
  - destruct (P q); [lia|done].
  - apply IH; [|done]. destruct (P q); lia.
Qed.

Lemma pool_round_frontier (n i : nat) :
  (i ≤ n)%nat → pool_frontier n (Pool.round n i) = i.
Proof.
  intros Hle. unfold Pool.round. destruct (Nat.ltb_spec i n); simpl; lia.
Qed.

Lemma pool_round_flags (n i : nat) :
  pool_token (Pool.round n i) = 0 ∧ pool_added (Pool.round n i) = 0
  ∧ Pool.round n i ≠ Pool.AtReturn
  ∧ (Pool.round n i ≠ Pool.AtWait → (i < n)%nat).
Proof.
  unfold Pool.round. destruct (Nat.ltb_spec i n); simpl; repeat split; try done.
Qed.

Lemma pool_init_invariant (n : nat) (concurrency : Z) (st0 : Pool.pool) :
  Pool.init n concurrency = Some st0 → pool_invariant n concurrency st0.
Proof.
  unfold Pool.init. destruct (Z.ltb_spec concurrency 0) as [|Hk]; [done|].
  intros [= <-]. destruct (pool_round_flags n 0) as (Ht & Ha & Hr & Hw).
  split; simpl.
  - apply length_replicate.
  - rewrite pool_round_frontier; lia.
  - intros Hw' _. rewrite pool_round_frontier by lia. auto.
  - intros j. rewrite pool_round_frontier by lia.
    rewrite lookup_replicate. split; [lia|]. intros ?. split; [done|lia].
  - rewrite Ht, !pool_count_replicate by done. lia.
  - lia.
  - rewrite Ha, !pool_count_replicate by done. lia.
  - done.
Qed.

(** A goroutine that is probing, has probed or has released is neither
    unspawned nor exited: moving it along leaves the frontier alone and
    rules out that the main goroutine has returned. *)
Lemma pool_invariant_move n concurrency c ph s w j a b s' w' :
  pool_invariant n concurrency (Pool.mkPool c ph s w) →
  ph !! j = Some a →
  a ≠ Pool.Unspawned → a ≠ Pool.Exited → b ≠ Pool.Unspawned →
  s' = Pool.count (is_phase Pool.Probing) (<[j := b]> ph)
       + Pool.count (is_phase Pool.Probed) (<[j := b]> ph) + pool_token c →
  s' ≤ concurrency →
  w' = Pool.count (is_phase Pool.Probing) (<[j := b]> ph)
       + Pool.count (is_phase Pool.Probed) (<[j := b]> ph)
       + Pool.count (is_phase Pool.Released) (<[j := b]> ph) + pool_added c →
  pool_invariant n concurrency (Pool.mkPool c (<[j := b]> ph) s' w').
Proof.
  intros [Hlen Hfr Hloop Hun Hsem Hcap Hwg Hret] Hj Ha Ha' Hb Hs' Hcap' Hw'.
  simpl in *. split; simpl; try done.
  - by rewrite length_insert.
  - intros i. rewrite <- Hun.
    destruct (decide (j = i)) as [->|Hne].
    + rewrite list_lookup_insert_eq by (by eapply lookup_lt_Some).
      rewrite Hj. split; intros [= ?]; congruence.
    + by rewrite list_lookup_insert_ne.
  - intros Hc. specialize (Hret Hc). unfold Pool.all_completed in Hret. simpl in Hret.
    rewrite Forall_forall in Hret. destruct Ha'. apply Hret.
    by eapply list_elem_of_lookup_2.
Qed.

Lemma pool_step_invariant (n : nat) (concurrency : Z) (st st' : Pool.pool) :
  pool_invariant n concurrency st →
  Pool.step n concurrency st st' →
  pool_invariant n concurrency st'.
Proof.
  intros Hinv Hstep.
  destruct Hstep as [i ph s w|i ph s w Hroom|i ph s w|j c ph s w Hj
                    |j c ph s w Hj Hs|j c ph s w Hj|ph s].
  - destruct Hinv as [Hlen Hfr Hloop Hun Hsem Hcap Hwg Hret]. simpl in *.
    split; simpl; try done; try lia.
    intros _ _. by apply Hloop.
  - destruct Hinv as [Hlen Hfr Hloop Hun Hsem Hcap Hwg Hret]. simpl in *.
    split; simpl; try done; try lia.
    intros _ _. by apply Hloop.
  - destruct Hinv as [Hlen Hfr Hloop Hun Hsem Hcap Hwg Hret]. simpl in *.
    assert (i < n)%nat as Hi by (by apply Hloop).
    assert (ph !! i = Some Pool.Unspawned) as Hph by (apply Hun; lia).
    destruct (pool_round_flags n (S i)) as (Ht & Ha & Hr & Hw).
    split; simpl.
    + by rewrite length_insert.
    + rewrite pool_round_frontier; lia.
    + intros Hw' _. rewrite pool_round_frontier by lia. auto.
    + intros j. rewrite pool_round_frontier by lia.
      destruct (decide (i = j)) as [->|Hne].
      * rewrite list_lookup_insert_eq by lia. split; [done|lia].
      * rewrite list_lookup_insert_ne by done. rewrite Hun. lia.
    + rewrite Ht, !(pool_count_insert _ _ _ _ _ Hph). simpl. lia.
    + lia.
    + rewrite Ha, !(pool_count_insert _ _ _ _ _ Hph). simpl. lia.
    + done.
  - apply (pool_invariant_move _ _ _ _ _ _ _ _ _ _ _ Hinv Hj); try done.
    + destruct Hinv as [_ _ _ _ Hsem _ _ _]. simpl in Hsem.
      rewrite !(pool_count_insert _ _ _ _ _ Hj). simpl. lia.
    + by destruct Hinv.
    + destruct Hinv as [_ _ _ _ _ _ Hwg _]. simpl in Hwg.
      rewrite !(pool_count_insert _ _ _ _ _ Hj). simpl. lia.
  - apply (pool_invariant_move _ _ _ _ _ _ _ _ _ _ _ Hinv Hj); try done.
    + destruct Hinv as [_ _ _ _ Hsem _ _ _]. simpl in Hsem.
      rewrite !(pool_count_insert _ _ _ _ _ Hj). simpl. lia.
    + destruct Hinv as [_ _ _ _ _ Hcap _ _]. simpl in Hcap. lia.
    + destruct Hinv as [_ _ _ _ _ _ Hwg _]. simpl in Hwg.
      rewrite !(pool_count_insert _ _ _ _ _ Hj). simpl. lia.
  - assert (pool_invariant n concurrency
              (Pool.mkPool c (<[j := Pool.Exited]> ph) s (w - 1))) as Hmove.
    { apply (pool_invariant_move _ _ _ _ _ _ _ _ _ _ _ Hinv Hj); try done.
      + destruct Hinv as [_ _ _ _ Hsem _ _ _]. simpl in Hsem.
        rewrite !(pool_count_insert _ _ _ _ _ Hj). simpl. lia.
      + by destruct Hinv.
      + destruct Hinv as [_ _ _ _ _ _ Hwg _]. simpl in Hwg.
        rewrite !(pool_count_insert _ _ _ _ _ Hj). simpl. lia. }
    done.
  - destruct Hinv as [Hlen Hfr Hloop Hun Hsem Hcap Hwg Hret]. simpl in *.
    split; simpl; try done.
    intros _. unfold Pool.all_completed. simpl. apply Forall_forall. intros p Hin.
    pose proof (pool_count_nonneg (is_phase Pool.Probing) ph).
    pose proof (pool_count_nonneg (is_phase Pool.Probed) ph).
    pose proof (pool_count_nonneg (is_phase Pool.Released) ph).
    pose proof (pool_count_zero (is_phase Pool.Probing) ph p ltac:(lia) Hin) as Hq1.
    pose proof (pool_count_zero (is_phase Pool.Probed) ph p ltac:(lia) Hin) as Hq2.
    pose proof (pool_count_zero (is_phase Pool.Released) ph p ltac:(lia) Hin) as Hq3.
    apply list_elem_of_lookup_1 in Hin as [j Hj].
    destruct p; try done.
    apply Hun in Hj. lia.
Qed.

Lemma pool_reachable_invariant (n : nat) (concurrency : Z) (st : Pool.pool) :
  Pool.reachable n concurrency st → pool_invariant n concurrency st.
Proof.
  intros (st0 & Hinit & Hsteps).
  apply pool_init_invariant in Hinit.
  induction Hsteps as [|x y z Hstep _ IH]; [done|].
  apply IH. by eapply pool_step_invariant.
Qed.

(** C9. In a bulk probe run over any number of records with concurrency
    [k], in check mode as in clean mode, no state the run can reach has
    more than [k] probes in flight, and the main goroutine is past
    [wg.Wait()] only in states where every goroutine has probed, released
    its slot and exited. *)
Theorem probes_in_flight_bounded (n : nat) (k : Z) (st : Pool.pool) :
  Pool.reachable n k st →
  Pool.in_flight st ≤ k
  ∧ (Pool.pc st = Pool.AtReturn → Pool.all_completed st)
  ∧ length (Pool.phases st) = n.
Proof.
  intros [Hlen _ _ _ Hsem Hcap _ Hret]%pool_reachable_invariant.
  split; [|done].
  pose proof (pool_count_nonneg (is_phase Pool.Probed) (Pool.phases st)).
  assert (0 ≤ pool_token (Pool.pc st)) by (destruct (Pool.pc st); simpl; lia).
  unfold Pool.in_flight.
  change (λ p, bool_decide (p = Pool.Probing)) with (is_phase Pool.Probing).
  lia.
Qed.

(** ** Commands on the keyspace *)

Ltac key_ne :=
  unfold RedisBookmarksKey, RedisURLSetKey, RedisBookmarksActiveKey,
    RedisBookmarksDeadKey, RedisURLSetActive, RedisURLSetDead;
  discriminate.

Lemma store_ZAdd_other key score m (s : Store) k :
  k ≠ key → (store_ZAdd key score m s).2 !! k = s !! k.
Proof.
  intros Hne. unfold store_ZAdd.
  destruct (s !! key) as [[z|vs]|]; simpl; by rewrite ?lookup_insert_ne.
Qed.

Lemma store_SAdd_other key v (s : Store) k :
  k ≠ key → (store_SAdd key v s).2 !! k = s !! k.
Proof.
  intros Hne. unfold store_SAdd.
  destruct (s !! key) as [[z|vs]|]; simpl; by rewrite ?lookup_insert_ne.
Qed.

Lemma store_SRem_other key v (s : Store) k :
  k ≠ key → (store_SRem key v s).2 !! k = s !! k.
Proof.
  intros Hne. unfold store_SRem.
  destruct (s !! key) as [[z|vs]|]; simpl; try done.
  case_decide; by rewrite ?lookup_delete_ne, ?lookup_insert_ne.
Qed.

Lemma url_set_other (s s' : Store) key :
  s' !! key = s !! key → url_set s' key = url_set s key.
Proof. unfold url_set. by intros ->. Qed.

Lemma index_rows_other (s s' : Store) key :
  s' !! key = s !! key → index_rows s' key = index_rows s key.
Proof. unfold index_rows. by intros ->. Qed.

Lemma holds_no_zset_other (s s' : Store) key :
  s' !! key = s !! key → holds_no_zset s key → holds_no_zset s' key.
Proof. unfold holds_no_zset. by intros ->. Qed.

Lemma holds_no_set_other (s s' : Store) key :
  s' !! key = s !! key → holds_no_set s key → holds_no_set s' key.
Proof. unfold holds_no_set. by intros ->. Qed.

Lemma holds_no_zset_absent (s : Store) key :
  s !! key = None → holds_no_zset s key.
Proof. intros Hnone z. by rewrite Hnone. Qed.

Lemma url_set_absent (s : Store) key :
  s !! key = None → url_set s key = ∅.
Proof. unfold url_set. by intros ->. Qed.

Lemma store_SAdd_url_set key v (s : Store) :
  holds_no_zset s key →
  url_set (store_SAdd key v s).2 key = {[v]} ∪ url_set s key
  ∧ holds_no_zset (store_SAdd key v s).2 key.
Proof.
  intros Hkind. unfold store_SAdd, url_set, holds_no_zset in *.
  destruct (s !! key) as [[z|vs]|] eqn:E; simpl.
  - by destruct (Hkind z).
  - rewrite lookup_insert_eq. split; [done|]. by intros z.
  - rewrite lookup_insert_eq. split; [set_solver|]. by intros z.
Qed.

Section StoreFacts.
Context `{Codec}.

Lemma store_put_other zkey skey (s : Store) bm k :
  k ≠ zkey → k ≠ skey → store_put zkey skey s bm !! k = s !! k.
Proof.
  intros Hz Hs. unfold store_put.
  by rewrite store_SAdd_other, store_ZAdd_other.
Qed.

Lemma store_put_all_other zkey skey bms (s : Store) k :
  k ≠ zkey → k ≠ skey → store_put_all zkey skey bms s !! k = s !! k.
Proof.
  intros Hz Hs. unfold store_put_all.
  revert s. induction bms as [|bm bms IH]; intros s; simpl; [done|].
  by rewrite IH, store_put_other.
Qed.

Lemma store_put_all_url_set zkey skey bms (s : Store) :
  zkey ≠ skey →
  holds_no_zset s skey →
  url_set (store_put_all zkey skey bms s) skey = urls_of bms ∪ url_set s skey.
Proof.
  intros Hne. unfold store_put_all, urls_of.
  revert s. induction bms as [|bm bms IH]; intros s Hkind.
  - simpl. set_solver.
  - cbn [fold_left]. rewrite fmap_cons, list_to_set_cons.
    assert (holds_no_zset
              (store_ZAdd zkey (float64_of_int64 (CreatedAt bm)) (json_Marshal bm) s).2
              skey) as Hkind'.
    { eapply holds_no_zset_other; [|done]. by apply store_ZAdd_other. }
    destruct (store_SAdd_url_set skey (URL bm) _ Hkind') as [Hset Hkind''].
    rewrite IH by done. unfold store_put. rewrite Hset.
    rewrite (url_set_other s _ skey) by (by apply store_ZAdd_other).
    set_solver.
Qed.
End StoreFacts.

(** ** Running the commands *)

Lemma st_bind_eq {A B} (m : M A) (f : A → M B) (st : State) :
  st_bind m f st = f (m st).1 (m st).2.
Proof. unfold st_bind. by destruct (m st). Qed.

Lemma redis_write_clock faults f st :
  clock (redis_write faults f st).2 = S (clock st).
Proof.
  unfold redis_write. destruct (faults (clock st)); [done|].
  by destruct (f (store st)).
Qed.

Lemma redis_write_ok f st :
  redis_write no_faults f st
  = ((f (store st)).1, mkState (f (store st)).2 (S (clock st))).
Proof. unfold redis_write, no_faults. by destruct (f (store st)). Qed.

Lemma redis_read_ok {A} (f : Store → result A) st :
  redis_read no_faults f st = (f (store st), mkState (store st) (S (clock st))).
Proof. done. Qed.

Lemma Del_ok key st :
  Del no_faults key st = (Ok (), mkState (delete key (store st)) (S (clock st))).
Proof. unfold Del. by rewrite redis_write_ok. Qed.

Ltac run_step lem :=
  rewrite st_bind_eq; rewrite lem; cbn [fst snd store clock].

Section RunFacts.
Context `{Codec}.

Lemma put_bookmark_clock faults zkey skey bm st :
  clock (put_bookmark faults zkey skey bm st).2 = S (S (clock st)).
Proof.
  unfold put_bookmark, ZAdd, SAdd. rewrite !st_bind_eq. unfold st_ret.
  cbn [snd]. by rewrite !redis_write_clock.
Qed.

Lemma for_each_put_clock faults zkey skey bms st :
  clock (for_each bms (put_bookmark faults zkey skey) st).2
  = (2 * length bms + clock st)%nat.
Proof.
  revert st. induction bms as [|bm bms IH]; intros st; [done|].
  cbn [for_each]. rewrite st_bind_eq, IH, put_bookmark_clock. simpl. lia.
Qed.

Lemma put_bookmark_ok zkey skey bm st :
  put_bookmark no_faults zkey skey bm st
  = ((), mkState (store_put zkey skey (store st) bm) (S (S (clock st)))).
Proof.
  unfold put_bookmark, ZAdd, SAdd, store_put.
  run_step redis_write_ok. run_step redis_write_ok. done.
Qed.

Lemma for_each_put_ok zkey skey bms st :
  for_each bms (put_bookmark no_faults zkey skey) st
  = ((), mkState (store_put_all zkey skey bms (store st))
           (2 * length bms + clock st)).
Proof.
  revert st. induction bms as [|bm bms IH]; intros st.
  - by destruct st.
  - cbn [for_each]. run_step put_bookmark_ok. rewrite IH.
    cbn [store clock]. do 2 f_equal. simpl. lia.
Qed.

Lemma active_map_get (active : list Bookmark) (m : gmap string bool) (u : string) :
  map_get (fold_left (λ (m : gmap string bool) bm, <[URL bm := true]> m) active m) u
  = bool_decide (u ∈ urls_of active) || map_get m u.
Proof.
  unfold urls_of. revert m. induction active as [|bm active IH]; intros m.
  - simpl. rewrite bool_decide_eq_false_2; [done|]. apply not_elem_of_empty.
  - cbn [fold_left]. rewrite IH, map_get_insert_true.
    rewrite fmap_cons, list_to_set_cons.
    destruct (decide (URL bm = u)) as [->|Hne].
    + rewrite ?(bool_decide_eq_true_2 (u = u)) by done.
      rewrite (bool_decide_eq_true_2 (u ∈ {[u]} ∪ _)).
      * simpl. by rewrite orb_true_r.
      * apply elem_of_union_l, elem_of_singleton. done.
    + rewrite (bool_decide_eq_false_2 (URL bm = u)) by done. simpl.
      f_equal. apply bool_decide_ext.
      rewrite elem_of_union, elem_of_singleton.
      split; [by right|]. intros [?|?]; [congruence|done].
Qed.

Lemma dead_loop (active all : list Bookmark) :
  fold_left
    (λ dead bm,
       if negb (map_get
                  (fold_left (λ (m : gmap string bool) bm, <[URL bm := true]> m) active ∅)
                  (URL bm))
       then dead ++ [bm] else dead) all []
  = dead_of active all.
Proof.
  unfold dead_of.
  enough (∀ acc,
    fold_left
      (λ dead bm,
         if negb (map_get
                    (fold_left (λ (m : gmap string bool) bm, <[URL bm := true]> m) active ∅)
                    (URL bm))
         then dead ++ [bm] else dead) all acc
    = acc ++ filter (λ bm, URL bm ∉ urls_of active) all) as Hgen by apply Hgen.
  induction all as [|bm all IH]; intros acc.
  - by rewrite app_nil_r.
  - cbn [fold_left]. rewrite IH, filter_cons, active_map_get.
    unfold map_get at 1. rewrite lookup_empty, orb_false_r. cbn [default].
    case_bool_decide as Hin; simpl.
    + by rewrite decide_False by (by intros ?).
    + rewrite decide_True by done. by rewrite <- app_assoc.
Qed.

Lemma getAllBookmarks_ok st :
  getAllBookmarks no_faults st
  = (match store_ZRange RedisBookmarksKey (store st) with
     | Ok rows => Ok (decode_entries rows)
     | Error err => Error err
     end, mkState (store st) (S (clock st))).
Proof.
  unfold getAllBookmarks, ZRangeWithScores. rewrite st_bind_eq, redis_read_ok.
  cbn [fst snd]. by destruct (store_ZRange RedisBookmarksKey (store st)).
Qed.

(** A rewrite the server hears in full. *)
Lemma saveBookmarksClassified_ok active st all :
  (getAllBookmarks no_faults st).1 = Ok all →
  saveBookmarksClassified no_faults active st
  = (Ok (), mkState (rewritten active all (store st))
              (S (clock st) + rewrite_commands active (dead_of active all))).
Proof.
  intros Hall. unfold saveBookmarksClassified.
  rewrite st_bind_eq, Hall.
  rewrite getAllBookmarks_ok. cbn [snd].
  rewrite dead_loop.
  do 4 run_step Del_ok.
  do 2 run_step for_each_put_ok.
  do 2 run_step Del_ok.
  run_step for_each_put_ok.
  unfold st_ret, rewritten, rewrite_commands. do 2 f_equal. lia.
Qed.

(** A rewrite over a failing connection: only the read can stop it. *)
Lemma saveBookmarksClassified_read_error faults active st err :
  (getAllBookmarks faults st).1 = Error err →
  saveBookmarksClassified faults active st
  = (Error err, (getAllBookmarks faults st).2).
Proof.
  intros Herr. unfold saveBookmarksClassified. by rewrite st_bind_eq, Herr.
Qed.

Lemma saveBookmarksClassified_read_ok faults active st all :
  (getAllBookmarks faults st).1 = Ok all →
  (saveBookmarksClassified faults active st).1 = Ok ()
  ∧ clock (saveBookmarksClassified faults active st).2
    = (S (clock st) + rewrite_commands active (dead_of active all))%nat.
Proof.
  intros Hall. unfold saveBookmarksClassified.
  rewrite st_bind_eq, Hall. rewrite dead_loop.
  rewrite !st_bind_eq. unfold st_ret. cbn [fst snd]. split; [done|].
  unfold Del.
  repeat first [rewrite for_each_put_clock | rewrite redis_write_clock].
  pose proof (getFromZSet_clock faults RedisBookmarksKey st) as Hread.
  change (getFromZSet faults RedisBookmarksKey st)
    with (getAllBookmarks faults st) in Hread.
  rewrite Hread. unfold rewrite_commands. lia.
Qed.
End RunFacts.

(** ** Reconciliation *)

Lemma first_seen_urls (seen : gmap string bool) (l : list Bookmark) (u : string) :
  u ∈ urls_of (first_seen seen l) ↔ u ∈ urls_of l ∧ map_get seen u = false.
Proof.
  unfold urls_of. revert seen. induction l as [|bm l IH]; intros seen.
  - simpl. rewrite elem_of_empty. tauto.
  - cbn [first_seen]. rewrite (fmap_cons URL bm l), list_to_set_cons.
    rewrite elem_of_union, elem_of_singleton.
    destruct (map_get seen (URL bm)) eqn:E.
    + rewrite IH. split; [tauto|]. intros [[->|?] ?]; [congruence|tauto].
    + rewrite fmap_cons, list_to_set_cons, elem_of_union, elem_of_singleton.
      rewrite IH, map_get_insert_true.
      destruct (decide (URL bm = u)) as [Heq|Hne].
      * rewrite bool_decide_eq_true_2 by done. simpl. rewrite <- Heq.
        split; [|tauto]. intros [?|[? ?]]; [tauto|done].
      * rewrite bool_decide_eq_false_2 by done. simpl.
        split; [intros [?|?]; [congruence|tauto]|tauto].
Qed.

Lemma removeDuplicates_urls (l : list Bookmark) :
  urls_of (removeDuplicates l) = urls_of l.
Proof.
  apply set_eq. intros u. rewrite removeDuplicates_first_seen, first_seen_urls.
  unfold map_get. rewrite lookup_empty. simpl. tauto.
Qed.

Lemma urls_of_sublist (l1 l2 : list Bookmark) :
  l1 `sublist_of` l2 → urls_of l1 ⊆ urls_of l2.
Proof.
  intros Hsub u. unfold urls_of. rewrite !elem_of_list_to_set.
  intros (bm & -> & Hin)%list_elem_of_fmap.
  apply list_elem_of_fmap. exists bm. split; [done|].
  by eapply elem_of_sublist.
Qed.

Lemma dead_of_urls (active all : list Bookmark) :
  urls_of (dead_of active all) = urls_of all ∖ urls_of active.
Proof.
  apply set_eq. intros u. unfold dead_of, urls_of.
  rewrite elem_of_difference, !elem_of_list_to_set, !list_elem_of_fmap.
  split.
  - intros (bm & -> & [Hdead Hin]%list_elem_of_filter). split; [eauto|].
    by rewrite elem_of_list_to_set, list_elem_of_fmap in Hdead.
  - intros [(bm & -> & Hin) Hdead]. exists bm. split; [done|].
    apply list_elem_of_filter. split; [|done].
    by rewrite elem_of_list_to_set, list_elem_of_fmap.
Qed.

Section ReconcileFacts.
Context `{Codec, NetHttp}.
Variable net : Z → nat → Client.

Lemma removeDeadLinks_any_schedule choices choices' bookmarks concurrency timeout :
  removeDeadLinks net choices bookmarks concurrency timeout
  = removeDeadLinks net choices' bookmarks concurrency timeout.
Proof.
  unfold removeDeadLinks. destruct (prober_starts _ _); [|done].
  by rewrite !keep_array_final by apply schedule_perm.
Qed.

Lemma cleanBookmarks_any_schedule faults choices choices' c st :
  cleanBookmarks faults net choices c st = cleanBookmarks faults net choices' c st.
Proof.
  unfold cleanBookmarks. rewrite !st_bind_eq.
  destruct (getAllBookmarks faults st).1 as [bookmarks|err]; [|done].
  destruct (length bookmarks =? 0)%nat; [done|].
  by rewrite (removeDeadLinks_any_schedule choices choices').
Qed.

Lemma healthy_in_order_sublist timeout (bookmarks : list Bookmark) :
  healthy_in_order net timeout bookmarks `sublist_of` bookmarks.
Proof.
  unfold healthy_in_order, numbered.
  transitivity ((zip (seq 0 (length bookmarks)) bookmarks).*2).
  - apply fmap_sublist, sublist_filter.
  - rewrite snd_zip; [done|]. by rewrite length_seq.
Qed.

(** The two membership sets after a rewrite the server hears in full. *)
Lemma rewritten_url_sets (active all : list Bookmark) (s : Store) :
  url_set (rewritten active all s) RedisURLSetActive = urls_of active
  ∧ url_set (rewritten active all s) RedisURLSetDead = urls_of (dead_of active all).
Proof.
  unfold rewritten. split.
  - rewrite (url_set_other _ _ RedisURLSetActive)
      by (apply store_put_all_other; key_ne).
    rewrite (url_set_other _ _ RedisURLSetActive)
      by (rewrite !lookup_delete_ne by key_ne; apply store_put_all_other; key_ne).
    rewrite store_put_all_url_set.
    + rewrite url_set_absent; [set_solver|].
      rewrite lookup_delete_ne by key_ne. apply lookup_delete_eq.
    + key_ne.
    + apply holds_no_zset_absent.
      rewrite lookup_delete_ne by key_ne. apply lookup_delete_eq.
  - rewrite (url_set_other _ _ RedisURLSetDead)
      by (apply store_put_all_other; key_ne).
    rewrite (url_set_other _ _ RedisURLSetDead)
      by (rewrite !lookup_delete_ne by key_ne; done).
    rewrite store_put_all_url_set.
    + rewrite url_set_absent; [set_solver|].
      rewrite store_put_all_other by key_ne. apply lookup_delete_eq.
    + key_ne.
    + apply holds_no_zset_absent.
      rewrite store_put_all_other by key_ne. apply lookup_delete_eq.
Qed.

Lemma rewritten_partition (active all : list Bookmark) (s : Store) :
  urls_of active ⊆ urls_of all →
  partition_invariant all (rewritten active all s).
Proof.
  intros Hsub. unfold partition_invariant.
  destruct (rewritten_url_sets active all s) as [-> ->].
  rewrite dead_of_urls, removeDuplicates_urls. split.
  - set_solver.
  - apply set_eq. intros u. rewrite elem_of_union, elem_of_difference.
    split; [intros [?|[? _]]; auto|].
    intros Hu. destruct (decide (u ∈ urls_of active)); auto.
Qed.

Lemma cleanBookmarks_ok choices c st bookmarks :
  (getAllBookmarks no_faults st).1 = Ok bookmarks →
  bookmarks ≠ [] →
  prober_starts (flag_concurrency c) (length (removeDuplicates bookmarks)) = true →
  cleanBookmarks no_faults net choices c st
  = (Done (Cleaned
       (Z.of_nat (length bookmarks) - Z.of_nat (length (removeDuplicates bookmarks)))
       (Z.of_nat (length (removeDuplicates bookmarks))
        - Z.of_nat (length (healthy_in_order net (flag_timeout c)
                              (removeDuplicates bookmarks))))
       (Z.of_nat (length (healthy_in_order net (flag_timeout c)
                            (removeDuplicates bookmarks))))),
     mkState
       (rewritten (healthy_in_order net (flag_timeout c) (removeDuplicates bookmarks))
          bookmarks (store st))
       (S (S (clock st))
        + rewrite_commands
            (healthy_in_order net (flag_timeout c) (removeDuplicates bookmarks))
            (dead_of (healthy_in_order net (flag_timeout c) (removeDuplicates bookmarks))
               bookmarks))).
Proof.
  intros Hread Hne Hstart. unfold cleanBookmarks.
  rewrite st_bind_eq, Hread.
  destruct bookmarks as [|bm bookmarks]; [done|]. cbn [length Nat.eqb].
  rewrite removeDeadLinks_returns by done.
  rewrite st_bind_eq.
  assert ((getAllBookmarks no_faults (getAllBookmarks no_faults st).2).1
          = Ok (bm :: bookmarks)) as Hread'.
  { rewrite <- Hread. by rewrite !getAllBookmarks_ok. }
  rewrite (saveBookmarksClassified_ok _ _ _ Hread').
  cbn [fst snd]. unfold st_ret. rewrite getAllBookmarks_ok. done.
Qed.
End ReconcileFacts.

Section Reconcile.
Context `{Codec, NetHttp}.
Variable net : Z → nat → Client.

(** C2, as the code has it. After every run of [clean] that read a
    non-empty list of records, ran its probes (the concurrency is
    positive) and had every command reach the server, the run reports
    success and the set of active URLs and the set of dead URLs are
    disjoint and together are the URLs of the deduplicated input. A run
    that reads no record returns at its guard ("No bookmarks to clean")
    and rewrites nothing. *)
Theorem clean_partitions_nonempty_input choices c st bookmarks :
  (getAllBookmarks no_faults st).1 = Ok bookmarks →
  bookmarks ≠ [] →
  0 < flag_concurrency c →
  ∃ removedDuplicates removedDead remaining st',
    cleanBookmarks no_faults net choices c st
    = (Done (Cleaned removedDuplicates removedDead remaining), st')
    ∧ partition_invariant bookmarks (store st').
Proof.
  intros Hread Hne Hpos.
  rewrite (cleanBookmarks_ok net choices c st bookmarks Hread Hne)
    by (by apply prober_starts_pos).
  do 4 eexists. split; [done|]. cbn [store].
  apply rewritten_partition.
  rewrite <- (removeDuplicates_urls bookmarks).
  apply urls_of_sublist, healthy_in_order_sublist.
Qed.

Lemma cleanBookmarks_error_before_mutation faults choices c st err :
  (cleanBookmarks faults net choices c st).1 = Failed err →
  store (cleanBookmarks faults net choices c st).2 = store st.
Proof.
  unfold cleanBookmarks. rewrite st_bind_eq.
  pose proof (getFromZSet_store faults RedisBookmarksKey st) as Hstore.
  change (getFromZSet faults RedisBookmarksKey st)
    with (getAllBookmarks faults st) in Hstore.
  destruct (getAllBookmarks faults st).1 as [bookmarks|err1] eqn:Hread; [|done].
  destruct (length bookmarks =? 0)%nat; [done|].
  destruct (removeDeadLinks net choices _ _ _) as [activeBookmarks|]; [|done].
  rewrite st_bind_eq.
  set (st1 := (getAllBookmarks faults st).2) in *.
  destruct (getAllBookmarks faults st1).1 as [all|err2] eqn:Hread2.
  - destruct (saveBookmarksClassified_read_ok faults activeBookmarks st1 all Hread2)
      as [-> _]. done.
  - rewrite (saveBookmarksClassified_read_error faults activeBookmarks st1 err2 Hread2).
    unfold st_ret. cbn [fst snd]. intros _.
    pose proof (getFromZSet_store faults RedisBookmarksKey st1) as Hstore1.
    change (getFromZSet faults RedisBookmarksKey st1)
      with (getAllBookmarks faults st1) in Hstore1.
    by rewrite Hstore1.
Qed.

(** C3, as the code has it. The rewrite checks the reply of one command
    only, its opening read of the combined index: when that read fails,
    the error is returned at once and nothing has been written. The
    replies of the deletes and of the writes are dropped: whichever of
    them fail, every later command is still sent (the rewrite sends all
    its commands) and the rewrite reports success. So [clean] returns an
    error only with the keyspace as it found it. *)
Theorem rewrite_surfaces_only_read_failure faults choices c active st :
  match (getAllBookmarks faults st).1 with
  | Error err =>
      saveBookmarksClassified faults active st = (Error err, (getAllBookmarks faults st).2)
      ∧ store (saveBookmarksClassified faults active st).2 = store st
  | Ok all =>
      (saveBookmarksClassified faults active st).1 = Ok ()
      ∧ clock (saveBookmarksClassified faults active st).2
        = (S (clock st) + rewrite_commands active (dead_of active all))%nat
  end
  ∧ (∀ err, (cleanBookmarks faults net choices c st).1 = Failed err →
            store (cleanBookmarks faults net choices c st).2 = store st).
Proof.
  split; [|intros err; apply cleanBookmarks_error_before_mutation].
  destruct (getAllBookmarks faults st).1 as [all|err] eqn:Hread.
  - by apply saveBookmarksClassified_read_ok.
  - rewrite (saveBookmarksClassified_read_error faults active st err Hread).
    split; [done|]. cbn [snd].
    pose proof (getFromZSet_store faults RedisBookmarksKey st) as Hstore.
    by change (getFromZSet faults RedisBookmarksKey st)
      with (getAllBookmarks faults st) in Hstore.
Qed.
End Reconcile.

(** The store left by a [clean] that found its only link dead, and on
    which the next [clean] reads nothing. *)
Lemma all_dead_store_reached :
  store (cleanBookmarks (H:=Json.codec) no_faults Scenario.fake_net [] Scenario.ctx
           (mkState Scenario.stale_store 0)).2
  = Scenario.all_dead_store.
Proof. vm_compute. reflexivity. Qed.

(** C2 fails as stated: on the store above [clean] reads an empty list
    and reports success, with one URL in the dead set and none in the
    deduplicated input. *)
Lemma clean_empty_input_keeps_partitions :
  (getAllBookmarks (H:=Json.codec) no_faults (mkState Scenario.all_dead_store 0)).1 = Ok []
  ∧ (cleanBookmarks (H:=Json.codec) no_faults Scenario.fake_net [] Scenario.ctx
       (mkState Scenario.all_dead_store 0)).1 = Done NoBookmarksToClean
  ∧ ¬ partition_invariant []
        (store (cleanBookmarks (H:=Json.codec) no_faults Scenario.fake_net []
                  Scenario.ctx (mkState Scenario.all_dead_store 0)).2).
Proof.
  split; [by vm_compute|]. split; [by vm_compute|].
  intros [_ Hunion].
  assert ("a" ∈ urls_of (removeDuplicates [])) as Hin.
  { rewrite <- Hunion. apply elem_of_union_r. by vm_compute. }
  by vm_compute in Hin.
Qed.

(** C3 fails as stated: in the run of [clean] on the scenario store in
    which the connection drops on the first DEL of the rewrite, that DEL
    fails, yet [clean] reports success, all sixteen commands of the run
    are sent and the later steps have written the active index. *)
Lemma clean_hides_lost_delete :
  (Del Scenario.third_command_lost RedisBookmarksActiveKey
     (mkState Scenario.store0 2)).1 = Error ConnError
  ∧ (cleanBookmarks (H:=Json.codec) Scenario.third_command_lost Scenario.fake_net []
       Scenario.ctx Scenario.st0).1 = Done (Cleaned 1 1 1)
  ∧ clock (cleanBookmarks (H:=Json.codec) Scenario.third_command_lost Scenario.fake_net []
             Scenario.ctx Scenario.st0).2 = 16%nat
  ∧ index_rows
      (store (cleanBookmarks (H:=Json.codec) Scenario.third_command_lost
                Scenario.fake_net [] Scenario.ctx Scenario.st0).2)
      RedisBookmarksActiveKey = [Scenario.row Scenario.b3].
Proof. repeat split; by vm_compute. Qed.

(** C1, as the code has it. On the three records of the scenario, with
    "a" probed unhealthy and "b" healthy, [clean] deduplicates to the
    first "a" and "b", keeps "b" and reports one duplicate and one dead
    link removed, one bookmark remaining. The active index, the active
    set and the combined index hold "b" alone. The dead set holds "a",
    and the dead index holds both records of "a": the dead records are
    taken from the full set read again, not from the deduplicated one.
    This holds whatever the order in which the probes finish. *)
Theorem scenario_clean_outcome (choices : list nat) :
  removeDuplicates [Scenario.a1; Scenario.a2; Scenario.b3] = [Scenario.a1; Scenario.b3]
  ∧ (cleanBookmarks (H:=Json.codec) no_faults Scenario.fake_net choices
       Scenario.ctx Scenario.st0).1 = Done (Cleaned 1 1 1)
  ∧ (getFromZSet (H:=Json.codec) no_faults RedisBookmarksActiveKey
       (cleanBookmarks (H:=Json.codec) no_faults Scenario.fake_net choices
          Scenario.ctx Scenario.st0).2).1 = Ok [Scenario.b3]
  ∧ url_set
      (store (cleanBookmarks (H:=Json.codec) no_faults Scenario.fake_net choices
                Scenario.ctx Scenario.st0).2) RedisURLSetActive = {["b"]}
  ∧ (getFromZSet (H:=Json.codec) no_faults RedisBookmarksKey
       (cleanBookmarks (H:=Json.codec) no_faults Scenario.fake_net choices
          Scenario.ctx Scenario.st0).2).1 = Ok [Scenario.b3]
  ∧ (getFromZSet (H:=Json.codec) no_faults RedisBookmarksDeadKey
       (cleanBookmarks (H:=Json.codec) no_faults Scenario.fake_net choices
          Scenario.ctx Scenario.st0).2).1 = Ok [Scenario.a1; Scenario.a2]
  ∧ url_set
      (store (cleanBookmarks (H:=Json.codec) no_faults Scenario.fake_net choices
                Scenario.ctx Scenario.st0).2) RedisURLSetDead = {["a"]}.
Proof.
  rewrite (cleanBookmarks_any_schedule (H:=Json.codec) Scenario.fake_net no_faults
             choices [] Scenario.ctx Scenario.st0).
  repeat split; by vm_compute.
Qed.

(** C1 fails as stated: after [clean] on the scenario the dead partition
    is not the single record of "a" created at 1. *)
Lemma scenario_dead_partition_not_deduplicated :
  ¬ ((getFromZSet (H:=Json.codec) no_faults RedisBookmarksActiveKey
        (cleanBookmarks (H:=Json.codec) no_faults Scenario.fake_net []
           Scenario.ctx Scenario.st0).2).1 = Ok [Scenario.b3]
     ∧ (getFromZSet (H:=Json.codec) no_faults RedisBookmarksDeadKey
          (cleanBookmarks (H:=Json.codec) no_faults Scenario.fake_net []
             Scenario.ctx Scenario.st0).2).1 = Ok [Scenario.a1]).
Proof. intros [_ Hdead]. by vm_compute in Hdead. Qed.

(** ** Revive *)

Lemma store_ZAdd_rows key score m (s : Store) :
  holds_no_set s key →
  index_rows (store_ZAdd key score m s).2 key = zupsert score m (index_rows s key).
Proof.
  intros Hkind. unfold store_ZAdd, index_rows.
  destruct (s !! key) as [[z|vs]|] eqn:E; simpl.
  - by rewrite lookup_insert_eq.
  - by destruct (Hkind vs).
  - by rewrite lookup_insert_eq.
Qed.

Lemma store_SRem_url_set key v (s : Store) :
  holds_no_zset s key →
  url_set (store_SRem key v s).2 key = url_set s key ∖ {[v]}.
Proof.
  intros Hkind. unfold store_SRem, url_set.
  destruct (s !! key) as [[z|vs]|] eqn:E; simpl.
  - by destruct (Hkind z).
  - case_decide as Hempty.
    + by rewrite lookup_delete_eq.
    + by rewrite lookup_insert_eq.
  - rewrite E. set_solver.
Qed.

Section Revive.
Context `{Codec}.

Lemma revive_entry_ok bm st :
  revive_entry no_faults bm st = ((), mkState (revived bm (store st)) (4 + clock st)).
Proof.
  unfold revive_entry, ZAdd, SAdd, SRem, revived.
  do 4 run_step redis_write_ok. done.
Qed.

Lemma revive_entry_clock faults bm st :
  clock (revive_entry faults bm st).2 = (4 + clock st)%nat.
Proof.
  unfold revive_entry, ZAdd, SAdd, SRem. rewrite !st_bind_eq. unfold st_ret.
  cbn [snd]. by rewrite !redis_write_clock.
Qed.

Lemma revive_scan_find faults url dead st :
  revive_scan faults url dead st
  = match find (has_url url) dead with
    | Some bm => (Done (), (revive_entry faults bm st).2)
    | None => (Failed (ExitError "url not found in dead list" 1), st)
    end.
Proof.
  induction dead as [|bm dead IH]; [done|].
  cbn [revive_scan find]. unfold has_url at 1.
  destruct (bool_decide (URL bm = url)); [|done].
  by rewrite st_bind_eq.
Qed.

Lemma revive_found_url url dead bm :
  find (has_url url) dead = Some bm → URL bm = url ∧ bm ∈ dead.
Proof.
  intros Hfind. apply find_some in Hfind as [Hin Hurl].
  apply bool_decide_eq_true in Hurl. split; [done|]. by apply list_elem_of_In.
Qed.

(** C6. [dead revive <url>], when the scan of the dead index holds a
    record with that URL and the commands reach the server, takes the
    first such record and reports success, having written that one
    record into the active index, its URL into the active set and the
    record into the combined index, and having removed the URL from the
    dead set; the key of the dead index is left as it was, row included,
    and so is every key besides those four. When the scan holds no
    record with that URL, it fails with "url not found in dead list" and
    the keyspace is unchanged, on any connection. *)
Theorem revive_moves_one_record faults c st url rest :
  Args c = url :: rest →
  (∀ dead bm,
     faults = no_faults →
     (getFromZSet no_faults RedisBookmarksDeadKey st).1 = Ok dead →
     find (has_url url) dead = Some bm →
     holds_no_set (store st) RedisBookmarksActiveKey →
     holds_no_zset (store st) RedisURLSetActive →
     holds_no_zset (store st) RedisURLSetDead →
     holds_no_set (store st) RedisBookmarksKey →
     let s' := store (deadReviveCmd faults c st).2 in
     (deadReviveCmd faults c st).1 = Done ()
     ∧ URL bm = url
     ∧ index_rows s' RedisBookmarksActiveKey
       = zupsert (float64_of_int64 (CreatedAt bm)) (json_Marshal bm)
           (index_rows (store st) RedisBookmarksActiveKey)
     ∧ url_set s' RedisURLSetActive = {[url]} ∪ url_set (store st) RedisURLSetActive
     ∧ index_rows s' RedisBookmarksKey
       = zupsert (float64_of_int64 (CreatedAt bm)) (json_Marshal bm)
           (index_rows (store st) RedisBookmarksKey)
     ∧ url_set s' RedisURLSetDead = url_set (store st) RedisURLSetDead ∖ {[url]}
     ∧ s' !! RedisBookmarksDeadKey = store st !! RedisBookmarksDeadKey
     ∧ (∀ k, k ≠ RedisBookmarksActiveKey → k ≠ RedisURLSetActive →
             k ≠ RedisURLSetDead → k ≠ RedisBookmarksKey →
             s' !! k = store st !! k))
  ∧ (find (has_url url) (or_nil (getFromZSet faults RedisBookmarksDeadKey st).1) = None →
     (deadReviveCmd faults c st).1 = Failed (ExitError "url not found in dead list" 1)
     ∧ store (deadReviveCmd faults c st).2 = store st).
Proof.
  intros Hargs. unfold deadReviveCmd. rewrite Hargs, st_bind_eq, revive_scan_find.
  split.
  - intros dead bm -> Hscan Hfind Hactive Haset Hdset Hindex.
    rewrite Hscan. cbn [or_nil]. rewrite Hfind. cbn [fst snd].
    rewrite revive_entry_ok. cbv zeta. cbn [fst snd store].
    rewrite getFromZSet_store.
    destruct (revive_found_url url dead bm Hfind) as [Hurl _].
    set (s := store st) in *. unfold revived. rewrite Hurl.
    set (score := float64_of_int64 (CreatedAt bm)).
    set (s1 := (store_ZAdd RedisBookmarksActiveKey score (json_Marshal bm) s).2).
    set (s2 := (store_SAdd RedisURLSetActive url s1).2).
    set (s3 := (store_SRem RedisURLSetDead url s2).2).
    set (s4 := (store_ZAdd RedisBookmarksKey score (json_Marshal bm) s3).2).
    assert (∀ k, k ≠ RedisBookmarksActiveKey → s1 !! k = s !! k) as H1
      by (intros k ?; by apply store_ZAdd_other).
    assert (∀ k, k ≠ RedisURLSetActive → s2 !! k = s1 !! k) as H2
      by (intros k ?; by apply store_SAdd_other).
    assert (∀ k, k ≠ RedisURLSetDead → s3 !! k = s2 !! k) as H3
      by (intros k ?; by apply store_SRem_other).
    assert (∀ k, k ≠ RedisBookmarksKey → s4 !! k = s3 !! k) as H4
      by (intros k ?; by apply store_ZAdd_other).
    split; [done|]. split; [done|]. split; [|split; [|split; [|split; [|split]]]].
    + rewrite (index_rows_other s1 s4) by (rewrite H4, H3, H2 by key_ne; done).
      unfold s1. by rewrite store_ZAdd_rows.
    + rewrite (url_set_other s2 s4) by (rewrite H4, H3 by key_ne; done).
      unfold s2.
      destruct (store_SAdd_url_set RedisURLSetActive url s1) as [-> _].
      * eapply holds_no_zset_other; [|exact Haset]. apply H1. key_ne.
      * f_equal. apply url_set_other, H1. key_ne.
    + unfold s4. rewrite store_ZAdd_rows.
      * f_equal. apply index_rows_other. rewrite H3, H2, H1 by key_ne. done.
      * eapply holds_no_set_other; [|exact Hindex].
        rewrite H3, H2, H1 by key_ne. done.
    + rewrite (url_set_other s3 s4) by (apply H4; key_ne).
      unfold s3. rewrite store_SRem_url_set.
      * f_equal. apply url_set_other. rewrite H2, H1 by key_ne. done.
      * eapply holds_no_zset_other; [|exact Hdset].
        rewrite H2, H1 by key_ne. done.
    + rewrite H4, H3, H2, H1 by key_ne. done.
    + intros k ? ? ? ?. rewrite H4, H3, H2, H1 by done. done.
  - intros ->. cbn [fst snd]. split; [done|]. apply getFromZSet_store.
Qed.
End Revive.

(** ** Which commands write *)

Section ReadOnly.
Context `{Codec, NetHttp, Strings}.
Variable faults : nat → bool.
Variable net : Z → nat → Client.
Variable choices : list nat.

Lemma getAllBookmarks_store st :
  store (getAllBookmarks faults st).2 = store st.
Proof. apply (getFromZSet_store faults RedisBookmarksKey). Qed.

Lemma checkBookmarks_store c st :
  store (checkBookmarks faults net choices c st).2 = store st.
Proof.
  unfold checkBookmarks. rewrite st_bind_eq.
  pose proof (getAllBookmarks_store st) as Hstore.
  destruct (getAllBookmarks faults st).1 as [bookmarks|err]; [|done].
  destruct (length bookmarks =? 0)%nat; [done|].
  by destruct (checkDeadLinks net choices bookmarks _ _).
Qed.

Lemma listBookmarks_store c st :
  store (listBookmarks faults c st).2 = store st.
Proof.
  unfold listBookmarks. destruct (flag_include_dead c).
  - rewrite !st_bind_eq.
    set (st1 := (getFromZSet faults RedisBookmarksActiveKey st).2).
    assert (store (getFromZSet faults RedisBookmarksDeadKey st1).2 = store st) as Hstore.
    { rewrite getFromZSet_store. apply getFromZSet_store. }
    destruct (getFromZSet faults RedisBookmarksActiveKey st).1;
      destruct (getFromZSet faults RedisBookmarksDeadKey st1).1; done.
  - rewrite st_bind_eq.
    pose proof (getFromZSet_store faults RedisBookmarksActiveKey st) as Hstore.
    by destruct (getFromZSet faults RedisBookmarksActiveKey st).1.
Qed.

Lemma searchBookmarksCmd_store c st :
  store (searchBookmarksCmd faults c st).2 = store st.
Proof.
  unfold searchBookmarksCmd. rewrite !st_bind_eq. unfold st_ret. cbn [snd].
  destruct (flag_include_dead c).
  - rewrite st_bind_eq. cbn [snd]. by rewrite !getFromZSet_store.
  - cbn [snd]. apply getFromZSet_store.
Qed.

Lemma deadShowCmd_store c st :
  store (deadShowCmd faults c st).2 = store st.
Proof.
  unfold deadShowCmd. rewrite st_bind_eq.
  pose proof (getFromZSet_store faults RedisBookmarksDeadKey st) as Hstore.
  by destruct (getFromZSet faults RedisBookmarksDeadKey st).1.
Qed.
End ReadOnly.

(** C10. [check] leaves the keyspace as it found it, every index and
    every membership set, for every keyspace, flags, network and
    connection; so do [import], [list], [search] and [dead show]. Each of
    [clean], [dead purge] and [dead revive] changes the keyspace on some
    run. *)
Theorem check_is_read_only `{Codec, NetHttp, Strings}
    (faults : nat → bool) (net : Z → nat → Client) (choices : list nat)
    (c : Context) (st : State) :
  store (checkBookmarks faults net choices c st).2 = store st
  ∧ store (importBookmarks c st).2 = store st
  ∧ store (listBookmarks faults c st).2 = store st
  ∧ store (searchBookmarksCmd faults c st).2 = store st
  ∧ store (deadShowCmd faults c st).2 = store st
  ∧ store (cleanBookmarks (H:=Json.codec) (H0:=Scenario.any_url_parses) no_faults
             Scenario.fake_net [] Scenario.ctx Scenario.st0).2 ≠ store Scenario.st0
  ∧ store (deadPurgeCmd no_faults Scenario.ctx (mkState Scenario.all_dead_store 0)).2
    ≠ Scenario.all_dead_store
  ∧ store (deadReviveCmd (H:=Json.codec) no_faults
             (mkContext 20 8000000000 false 50 EmptyString [] ["a"])
             (mkState Scenario.all_dead_store 0)).2
    ≠ Scenario.all_dead_store.
Proof.
  split; [apply checkBookmarks_store|].
  split; [reflexivity|].
  split; [apply listBookmarks_store|].
  split; [apply searchBookmarksCmd_store|].
  split; [apply deadShowCmd_store|].
  split; [|split].
  - intros Heq. apply (f_equal (λ s : Store, index_rows s RedisBookmarksActiveKey)) in Heq.
    vm_compute in Heq. discriminate Heq.
  - intros Heq. apply (f_equal (λ s : Store, index_rows s RedisBookmarksDeadKey)) in Heq.
    vm_compute in Heq. discriminate Heq.
  - intros Heq. apply (f_equal (λ s : Store, index_rows s RedisBookmarksActiveKey)) in Heq.
    vm_compute in Heq. discriminate Heq.
Qed.


(** ** Duplicate reports *)

Lemma occurrences_cons (u : string) (bm : Bookmark) (l : list Bookmark) :
  occurrences u (bm :: l)
  = ((if bool_decide (URL bm = u) then 1 else 0) + occurrences u l)%nat.
Proof.
  unfold occurrences. rewrite filter_cons.
  case_bool_decide; [rewrite decide_True by done|rewrite decide_False by done]; done.
Qed.

Lemma count_loop_lookup (l : list Bookmark) (m : gmap string nat) (u : string) :
  fold_left (λ urlCount bm, <[URL bm := S (default 0%nat (urlCount !! URL bm))]> urlCount)
    l m !! u
  = if decide (occurrences u l = 0%nat) then m !! u
    else Some (default 0%nat (m !! u) + occurrences u l)%nat.
Proof.
  revert m. induction l as [|bm l IH]; intros m; [done|].
  cbn [fold_left]. rewrite IH, occurrences_cons.
  destruct (decide (URL bm = u)) as [Heq|Hne].
  - rewrite bool_decide_eq_true_2 by done. rewrite Heq, lookup_insert_eq.
    rewrite (decide_False (P := (1 + _)%nat = 0%nat)) by lia.
    destruct (m !! u) as [k|]; cbn [default]; unfold id;
      destruct (decide (occurrences u l = 0%nat)); f_equal; lia.
  - rewrite bool_decide_eq_false_2 by done. rewrite lookup_insert_ne by done.
    done.
Qed.

Lemma count_urls_lookup (l : list Bookmark) (u : string) (n : nat) :
  count_urls l !! u = Some n ↔ n = occurrences u l ∧ (0 < n)%nat.
Proof.
  unfold count_urls. rewrite count_loop_lookup, lookup_empty. cbn [default].
  case_decide as Hz.
  - split; [done|]. intros [-> ?]. lia.
  - split; [intros [= <-]; lia|]. intros [-> _]. done.
Qed.

Lemma duplicates_loop (entries : list (string * nat)) (acc : list DuplicateInfo) :
  fold_left
    (λ duplicates (e : string * nat),
       if (1 <? e.2)%nat then duplicates ++ [mkDuplicateInfo e.1 e.2] else duplicates)
    entries acc
  = acc ++ ((λ e : string * nat, mkDuplicateInfo e.1 e.2)
              <$> filter (λ e : string * nat, (1 < e.2)%nat) entries).
Proof.
  revert acc. induction entries as [|e entries IH]; intros acc.
  - simpl. by rewrite app_nil_r.
  - cbn [fold_left]. rewrite IH, filter_cons.
    destruct (Nat.ltb_spec 1 e.2).
    + rewrite decide_True by done. rewrite fmap_cons. by rewrite <- app_assoc.
    + rewrite decide_False by lia. done.
Qed.

Lemma findDuplicates_filter (l : list Bookmark) :
  findDuplicates l
  = (λ e : string * nat, mkDuplicateInfo e.1 e.2)
      <$> filter (λ e : string * nat, (1 < e.2)%nat) (map_to_list (count_urls l)).
Proof. unfold findDuplicates. by rewrite duplicates_loop. Qed.

Lemma findDuplicates_elem (l : list Bookmark) (d : DuplicateInfo) :
  d ∈ findDuplicates l
  ↔ DupCount d = occurrences (DupURL d) l ∧ (1 < DupCount d)%nat.
Proof.
  rewrite findDuplicates_filter, list_elem_of_fmap. split.
  - intros ([u n] & -> & [Hmany Hin]%list_elem_of_filter). simpl in *.
    apply elem_of_map_to_list, count_urls_lookup in Hin as [-> _]. done.
  - intros [Hcount Hmany]. exists (DupURL d, DupCount d). split; [by destruct d|].
    apply list_elem_of_filter. split; [done|].
    apply elem_of_map_to_list, count_urls_lookup. split; [done|lia].
Qed.

Lemma occurrences_pos (u : string) (l : list Bookmark) :
  (0 < occurrences u l)%nat ↔ u ∈ URL <$> l.
Proof.
  induction l as [|bm l IH].
  - unfold occurrences. simpl. rewrite elem_of_nil. lia.
  - rewrite occurrences_cons, fmap_cons, elem_of_cons, <- IH.
    case_bool_decide as Heq; split; try lia; auto.
    intros [?|?]; [congruence|lia].
Qed.

Lemma occurrences_NoDup (l : list Bookmark) :
  NoDup (URL <$> l) ↔ ∀ u, (occurrences u l ≤ 1)%nat.
Proof.
  induction l as [|bm l IH].
  - split; [intros _ u; unfold occurrences; simpl; lia|constructor].
  - rewrite fmap_cons, NoDup_cons, IH. split.
    + intros [Hfresh Hle] u. rewrite occurrences_cons.
      case_bool_decide as Heq; [|apply Hle].
      rewrite Heq, <- occurrences_pos in Hfresh. lia.
    + intros Hle. split.
      * rewrite <- occurrences_pos. specialize (Hle (URL bm)).
        rewrite occurrences_cons, bool_decide_eq_true_2 in Hle by done. lia.
      * intros u. specialize (Hle u). rewrite occurrences_cons in Hle. lia.
Qed.

Lemma findDuplicates_nil_iff (l : list Bookmark) :
  findDuplicates l = [] ↔ NoDup (URL <$> l).
Proof.
  rewrite occurrences_NoDup. split.
  - intros Hnone u. destruct (decide (occurrences u l ≤ 1)%nat) as [|Hmany]; [done|].
    assert (mkDuplicateInfo u (occurrences u l) ∈ findDuplicates l) as Hin
      by (apply findDuplicates_elem; simpl; split; [done|lia]).
    rewrite Hnone in Hin. by apply elem_of_nil in Hin.
  - intros Hle. destruct (findDuplicates l) as [|d ds] eqn:E; [done|].
    assert (d ∈ findDuplicates l) as Hin by (rewrite E; apply list_elem_of_here).
    apply findDuplicates_elem in Hin as [Hcount Hmany].
    specialize (Hle (DupURL d)). lia.
Qed.

(** X1. [findDuplicates] reports a URL exactly when more than one record
    carries it, with the number of records that do, and reports no URL
    twice; it reports nothing exactly when the URLs of the records are
    pairwise distinct. *)
Theorem findDuplicates_reports_repeated_urls (l : list Bookmark) :
  (∀ d, d ∈ findDuplicates l
        ↔ DupCount d = occurrences (DupURL d) l ∧ (1 < DupCount d)%nat)
  ∧ NoDup (DupURL <$> findDuplicates l)
  ∧ (findDuplicates l = [] ↔ NoDup (URL <$> l)).
Proof.
  split; [apply findDuplicates_elem|]. split.
  - rewrite findDuplicates_filter, <- list_fmap_compose.
    eapply sublist_NoDup; [apply (NoDup_fst_map_to_list (count_urls l))|].
    exact (fmap_sublist fst _ _ (sublist_filter _ _)).
  - apply findDuplicates_nil_iff.
Qed.


(** ** Check mode *)

Section CheckFacts.
Context `{NetHttp}.
Variable net : Z → nat → Client.

Lemma check_loop_app timeout (bookmarks : list Bookmark) (order : list nat)
    (acc : list Bookmark) :
  fold_left (check_worker net timeout bookmarks) order acc
  = acc ++ (order ≫= λ i,
              if probe_at net timeout bookmarks i then []
              else option_list (bookmarks !! i)).
Proof.
  revert acc. induction order as [|i order IH]; intros acc.
  - simpl. by rewrite app_nil_r.
  - cbn [fold_left]. rewrite IH, bind_cons, app_assoc. f_equal.
    unfold check_worker, probe_at. destruct (bookmarks !! i) as [b|]; simpl.
    + destruct (urlHealthy (net timeout i) (URL b)); simpl; [|done].
      by rewrite app_nil_r.
    + by rewrite app_nil_r.
Qed.

Lemma unhealthy_suffix timeout (bookmarks before rest : list Bookmark) :
  bookmarks = before ++ rest →
  (seq (length before) (length rest) ≫= λ i,
     if probe_at net timeout bookmarks i then []
     else option_list (bookmarks !! i))
  = (filter (λ ib, ¬ healthy_at net timeout ib = true)
       (numbered (length before) rest)).*2.
Proof.
  revert before. induction rest as [|bm rest IH]; intros before Hsplit; [done|].
  assert (bookmarks !! length before = Some bm) as Hbm.
  { rewrite Hsplit. by rewrite list_lookup_middle. }
  unfold numbered. cbn [length seq zip zip_with].
  rewrite bind_cons, filter_cons.
  specialize (IH (before ++ [bm])).
  rewrite length_app in IH. cbn [length] in IH.
  replace (length before + 1)%nat with (S (length before)) in IH by lia.
  unfold numbered in IH.
  rewrite IH by (by rewrite <- app_assoc).
  unfold probe_at at 1. rewrite Hbm.
  change (urlHealthy (net timeout (length before)) (URL bm))
    with (healthy_at net timeout (length before, bm)).
  destruct (healthy_at net timeout (length before, bm)) eqn:E.
  - rewrite decide_False by (by intros []). done.
  - rewrite decide_True by done. done.
Qed.

Lemma checkDeadLinks_perm choices bookmarks concurrency timeout deadLinks :
  checkDeadLinks net choices bookmarks concurrency timeout = Some deadLinks →
  deadLinks ≡ₚ unhealthy_in_order net timeout bookmarks.
Proof.
  unfold checkDeadLinks. destruct (prober_starts _ _); [|done].
  intros [= <-]. rewrite check_loop_app, app_nil_l.
  rewrite (schedule_perm choices (length bookmarks)).
  pose proof (unhealthy_suffix timeout bookmarks [] bookmarks eq_refl) as Hseq.
  cbn [length] in Hseq. by rewrite Hseq.
Qed.

Lemma healthy_unhealthy_split timeout (bookmarks : list Bookmark) :
  healthy_in_order net timeout bookmarks ++ unhealthy_in_order net timeout bookmarks
  ≡ₚ bookmarks.
Proof.
  unfold healthy_in_order, unhealthy_in_order. rewrite <- fmap_app.
  rewrite filter_app_complement. unfold numbered.
  rewrite snd_zip; [done|]. by rewrite length_seq.
Qed.

(** X2. In check mode the bulk prober returns the records whose probe found
    them unhealthy, each once, in the order in which the probes finished.
    For the same answers of the network, the records [check] reports dead
    and the records [clean] keeps are together the records probed, so the
    two counts add up to the number of records. *)
Theorem checkDeadLinks_complements_removeDeadLinks
    choices choices' bookmarks concurrency timeout :
  0 < concurrency →
  ∃ deadLinks activeBookmarks,
    checkDeadLinks net choices bookmarks concurrency timeout = Some deadLinks
    ∧ removeDeadLinks net choices' bookmarks concurrency timeout = Some activeBookmarks
    ∧ deadLinks ≡ₚ unhealthy_in_order net timeout bookmarks
    ∧ activeBookmarks ++ deadLinks ≡ₚ bookmarks
    ∧ (length activeBookmarks + length deadLinks = length bookmarks)%nat.
Proof.
  intros Hpos.
  pose proof (prober_starts_pos concurrency (length bookmarks) Hpos) as Hstart.
  destruct (checkDeadLinks net choices bookmarks concurrency timeout)
    as [deadLinks|] eqn:Hcheck;
    [|unfold checkDeadLinks in Hcheck; by rewrite Hstart in Hcheck].
  exists deadLinks, (healthy_in_order net timeout bookmarks).
  pose proof (checkDeadLinks_perm _ _ _ _ _ Hcheck) as Hperm.
  assert (healthy_in_order net timeout bookmarks ++ deadLinks ≡ₚ bookmarks) as Hall.
  { rewrite Hperm. apply healthy_unhealthy_split. }
  split; [done|]. split; [by apply removeDeadLinks_returns|].
  split; [done|]. split; [done|].
  rewrite <- length_app. by rewrite Hall.
Qed.
End CheckFacts.


(** ** Progress of the probe pool *)

Lemma pool_count_pos (P : Pool.phase → bool) (ph : list Pool.phase) :
  0 < Pool.count P ph → ∃ j p, ph !! j = Some p ∧ P p = true.
Proof.
  induction ph as [|q ph IH].
  - unfold Pool.count. simpl. lia.
  - rewrite pool_count_cons. destruct (P q) eqn:E.
    + intros _. exists 0%nat, q. done.
    + intros Hpos. destruct IH as (j & p & Hj & Hp); [lia|].
      exists (S j), p. done.
Qed.

Lemma is_phase_true (q p : Pool.phase) : is_phase q p = true → p = q.
Proof. unfold is_phase. by intros ?%bool_decide_eq_true. Qed.

(** A goroutine that holds a slot can move: a probe can finish, and a
    finished probe finds its token in the channel. *)
Lemma pool_holder_steps n concurrency c ph s w :
  0 < Pool.count (is_phase Pool.Probing) ph + Pool.count (is_phase Pool.Probed) ph →
  0 < s →
  ∃ st', Pool.step n concurrency (Pool.mkPool c ph s w) st'.
Proof.
  intros Hcount Hs.
  pose proof (pool_count_nonneg (is_phase Pool.Probing) ph).
  pose proof (pool_count_nonneg (is_phase Pool.Probed) ph).
  destruct (decide (0 < Pool.count (is_phase Pool.Probing) ph)) as [Hp|Hp].
  - apply pool_count_pos in Hp as (j & p & Hj & ->%is_phase_true).
    eexists. by apply (Pool.step_probed _ _ j).
  - assert (0 < Pool.count (is_phase Pool.Probed) ph) as Hd by lia.
    apply pool_count_pos in Hd as (j & p & Hj & ->%is_phase_true).
    eexists. by apply (Pool.step_release _ _ j).
Qed.

(** X3. With a positive concurrency the protocol cannot deadlock: in every
    state a run can reach, unless the main goroutine has returned from
    [wg.Wait()], some goroutine can take a step. *)
Theorem pool_never_deadlocks (n : nat) (k : Z) (st : Pool.pool) :
  0 < k →
  Pool.reachable n k st →
  Pool.pc st ≠ Pool.AtReturn →
  ∃ st', Pool.step n k st st'.
Proof.
  intros Hk [Hlen Hfr Hloop Hun Hsem Hcap Hwg Hret]%pool_reachable_invariant Hrun.
  destruct st as [c ph s w]. simpl in *.
  pose proof (pool_count_nonneg (is_phase Pool.Probing) ph).
  pose proof (pool_count_nonneg (is_phase Pool.Probed) ph).
  pose proof (pool_count_nonneg (is_phase Pool.Released) ph).
  destruct c as [i|i|i| |]; simpl in *.
  - eexists. apply Pool.step_add.
  - destruct (decide (s < k)) as [Hroom|Hfull].
    + eexists. by apply Pool.step_send.
    + apply pool_holder_steps; lia.
  - eexists. apply Pool.step_go.
  - destruct (decide (w = 0)) as [->|Hbusy].
    + eexists. apply Pool.step_wait.
    + destruct (decide (0 < Pool.count (is_phase Pool.Probing) ph
                            + Pool.count (is_phase Pool.Probed) ph)) as [Hhold|Hnone].
      * apply pool_holder_steps; lia.
      * assert (0 < Pool.count (is_phase Pool.Released) ph) as Hr by lia.
        apply pool_count_pos in Hr as (j & p & Hj & ->%is_phase_true).
        eexists. by apply (Pool.step_done _ _ j).
  - done.
Qed.

Lemma pool_zero_capacity_invariant (n : nat) (st : Pool.pool) :
  (0 < n)%nat →
  Pool.reachable n 0 st →
  (Pool.pc st = Pool.AtAdd 0 ∨ Pool.pc st = Pool.AtSend 0)
  ∧ Pool.phases st = replicate n Pool.Unspawned
  ∧ Pool.sem st = 0.
Proof.
  intros Hn (st0 & Hinit & Hsteps).
  assert ((Pool.pc st0 = Pool.AtAdd 0 ∨ Pool.pc st0 = Pool.AtSend 0)
          ∧ Pool.phases st0 = replicate n Pool.Unspawned
          ∧ Pool.sem st0 = 0) as Hinv.
  { unfold Pool.init in Hinit. simpl in Hinit. injection Hinit as <-. simpl.
    unfold Pool.round. destruct (Nat.ltb_spec 0 n); [auto|lia]. }
  clear Hinit. induction Hsteps as [|x y z Hstep _ IH]; [done|].
  apply IH. clear IH. destruct Hinv as ([Hpc|Hpc] & Hph & Hsem);
    destruct Hstep; simpl in *; simplify_eq; try lia; try (by auto);
    match goal with
    | Hj : replicate _ _ !! _ = Some _ |- _ =>
        apply lookup_replicate in Hj as [? _]; done
    end.
Qed.

(** X4. With concurrency 0 and at least one record the first send into the
    semaphore never gets through: no goroutine is ever started, no probe
    runs, and the main goroutine never returns; once it stands at the send
    no step is left. *)
Theorem pool_zero_capacity_blocks (n : nat) (st : Pool.pool) :
  (0 < n)%nat →
  Pool.reachable n 0 st →
  Pool.pc st ≠ Pool.AtReturn
  ∧ Forall (λ p, p = Pool.Unspawned) (Pool.phases st)
  ∧ Pool.in_flight st = 0
  ∧ (Pool.pc st = Pool.AtSend 0 → ¬ ∃ st', Pool.step n 0 st st').
Proof.
  intros Hn Hreach.
  destruct (pool_zero_capacity_invariant n st Hn Hreach) as (Hpc & Hph & Hsem).
  split; [by destruct Hpc as [-> | ->]|].
  split; [rewrite Hph; apply Forall_replicate; done|].
  split.
  - unfold Pool.in_flight. rewrite Hph. by apply pool_count_replicate.
  - intros Hsend [st' Hstep]. destruct Hstep; simpl in *; simplify_eq; try lia;
      match goal with
      | Hj : replicate _ _ !! _ = Some _ |- _ =>
          apply lookup_replicate in Hj as [? _]; done
      end.
Qed.


(** ** The indices after a rewrite *)

Lemma zinsert_perm (p : Z * string) (l : list (Z * string)) :
  zinsert p l ≡ₚ p :: l.
Proof.
  induction l as [|q l IH]; [done|].
  cbn [zinsert]. destruct (zentry_ltb p q); [done|].
  rewrite IH. apply Permutation_swap.
Qed.

Lemma zremove_fresh (m : string) (l : list (Z * string)) :
  m ∉ l.*2 → zremove m l = l.
Proof.
  unfold zremove. induction l as [|q l IH]; [done|].
  rewrite fmap_cons, not_elem_of_cons. intros [Hne Hfresh].
  rewrite filter_cons, decide_True by done. f_equal. by apply IH.
Qed.

Lemma zupsert_fresh_perm (score : Z) (m : string) (l : list (Z * string)) :
  m ∉ l.*2 → zupsert score m l ≡ₚ (score, m) :: l.
Proof.
  intros Hfresh. unfold zupsert. rewrite zremove_fresh by done. apply zinsert_perm.
Qed.

Lemma store_ZAdd_no_set key score m (s : Store) :
  holds_no_set s key → holds_no_set (store_ZAdd key score m s).2 key.
Proof.
  intros Hkind vs. unfold store_ZAdd.
  destruct (s !! key) as [[z|vs']|] eqn:E; simpl.
  - by rewrite lookup_insert_eq.
  - by destruct (Hkind vs').
  - by rewrite lookup_insert_eq.
Qed.

Section IndexFacts.
Context `{Codec}.

Lemma store_put_all_rows zkey skey bms (s : Store) :
  zkey ≠ skey →
  holds_no_set s zkey →
  index_rows (store_put_all zkey skey bms s) zkey
  = rows_after bms (index_rows s zkey).
Proof.
  intros Hne. unfold store_put_all, rows_after.
  revert s. induction bms as [|bm bms IH]; intros s Hkind; [done|].
  cbn [fold_left].
  assert (store_put zkey skey s bm !! zkey
          = (store_ZAdd zkey (row_of bm).1 (row_of bm).2 s).2 !! zkey) as Hz.
  { unfold store_put. by rewrite store_SAdd_other. }
  rewrite IH.
  - f_equal. rewrite (index_rows_other _ _ zkey Hz). by apply store_ZAdd_rows.
  - eapply holds_no_set_other; [exact Hz|]. by apply store_ZAdd_no_set.
Qed.

Lemma rows_after_perm (bms : list Bookmark) (rows : list (Z * string)) :
  NoDup (json_Marshal <$> bms) →
  (∀ bm, bm ∈ bms → json_Marshal bm ∉ rows.*2) →
  rows_after bms rows ≡ₚ (row_of <$> reverse bms) ++ rows.
Proof.
  unfold rows_after. revert rows.
  induction bms as [|bm bms IH]; intros rows Hnd Hfresh; [done|].
  rewrite fmap_cons in Hnd. apply NoDup_cons in Hnd as [Hbm Hnd].
  cbn [fold_left].
  assert (zupsert (row_of bm).1 (row_of bm).2 rows ≡ₚ row_of bm :: rows) as Hstep.
  { apply zupsert_fresh_perm, Hfresh, list_elem_of_here. }
  rewrite IH; [|done|].
  - rewrite Hstep, reverse_cons, fmap_app, <- app_assoc. done.
  - intros x Hx. rewrite Hstep, fmap_cons, not_elem_of_cons. split.
    + intros Heq. apply Hbm. simpl in Heq. rewrite <- Heq.
      apply list_elem_of_fmap. eauto.
    + by apply Hfresh, list_elem_of_further.
Qed.

Lemma reads_back_parse (bms : list Bookmark) :
  reads_back bms → omap parse_row (row_of <$> bms) = bms.
Proof.
  unfold reads_back. induction 1 as [|bm bms Hbm _ IH]; [done|].
  rewrite fmap_cons. cbn [omap list_omap]. unfold parse_row at 1. simpl.
  rewrite Hbm. by f_equal.
Qed.

Lemma reads_back_NoDup (bms : list Bookmark) :
  reads_back bms → NoDup (URL <$> bms) → NoDup (json_Marshal <$> bms).
Proof.
  unfold reads_back. intros Hback Hnd. apply NoDup_fmap_1 in Hnd.
  apply NoDup_fmap_2_strong; [|done].
  intros x y Hx Hy Heq.
  rewrite Forall_forall in Hback.
  pose proof (Hback x Hx) as Hbx. pose proof (Hback y Hy) as Hby.
  rewrite Heq in Hbx. congruence.
Qed.

Lemma reads_back_sublist (bms bms' : list Bookmark) :
  bms' `sublist_of` bms → reads_back bms → reads_back bms'.
Proof.
  unfold reads_back. rewrite !Forall_forall. intros Hsub Hback bm Hin.
  apply Hback. by eapply elem_of_sublist.
Qed.

(** The rows of the active index and of the combined index after a
    rewrite the server hears in full, and the combined URL set. *)
Lemma rewritten_indices (active all : list Bookmark) (s : Store) :
  index_rows (rewritten active all s) RedisBookmarksActiveKey = rows_after active []
  ∧ index_rows (rewritten active all s) RedisBookmarksKey = rows_after active []
  ∧ index_rows (rewritten active all s) RedisBookmarksDeadKey
    = rows_after (dead_of active all) []
  ∧ url_set (rewritten active all s) RedisURLSetKey = urls_of active.
Proof.
  unfold rewritten. split; [|split; [|split]].
  - rewrite (index_rows_other _ _ RedisBookmarksActiveKey)
      by (apply store_put_all_other; key_ne).
    rewrite (index_rows_other _ _ RedisBookmarksActiveKey)
      by (rewrite !lookup_delete_ne by key_ne; apply store_put_all_other; key_ne).
    rewrite store_put_all_rows.
    + f_equal. unfold index_rows.
      by rewrite !lookup_delete_ne, lookup_delete_eq by key_ne.
    + key_ne.
    + intros vs. by rewrite !lookup_delete_ne, lookup_delete_eq by key_ne.
  - rewrite store_put_all_rows.
    + f_equal. unfold index_rows.
      by rewrite lookup_delete_ne, lookup_delete_eq by key_ne.
    + key_ne.
    + intros vs. by rewrite lookup_delete_ne, lookup_delete_eq by key_ne.
  - rewrite (index_rows_other _ _ RedisBookmarksDeadKey)
      by (apply store_put_all_other; key_ne).
    rewrite (index_rows_other _ _ RedisBookmarksDeadKey)
      by (rewrite !lookup_delete_ne by key_ne; done).
    rewrite store_put_all_rows.
    + f_equal. unfold index_rows.
      rewrite store_put_all_other by key_ne.
      by rewrite !lookup_delete_ne, lookup_delete_eq by key_ne.
    + key_ne.
    + intros vs. rewrite store_put_all_other by key_ne.
      by rewrite !lookup_delete_ne, lookup_delete_eq by key_ne.
  - rewrite store_put_all_url_set.
    + rewrite url_set_absent; [set_solver|]. apply lookup_delete_eq.
    + key_ne.
    + apply holds_no_zset_absent. apply lookup_delete_eq.
Qed.
End IndexFacts.


Lemma store_ZRange_rows key (s : Store) :
  holds_no_set s key → store_ZRange key s = Ok (index_rows s key).
Proof.
  intros Hkind. unfold store_ZRange, index_rows.
  destruct (s !! key) as [[z|vs]|] eqn:E; try done. by destruct (Hkind vs).
Qed.

Section AfterClean.
Context `{Codec, NetHttp}.
Variable net : Z → nat → Client.

Lemma store_put_all_no_set zkey skey bms (s : Store) :
  zkey ≠ skey → holds_no_set s zkey →
  holds_no_set (store_put_all zkey skey bms s) zkey.
Proof.
  intros Hne. unfold store_put_all.
  revert s. induction bms as [|bm bms IH]; intros s Hkind; [done|].
  cbn [fold_left]. apply IH.
  eapply holds_no_set_other; [|by apply (store_ZAdd_no_set zkey (row_of bm).1 (row_of bm).2)].
  unfold store_put. by rewrite store_SAdd_other.
Qed.

Lemma rewritten_scans (active all : list Bookmark) (s : Store) (clk : nat) :
  (getAllBookmarks no_faults (mkState (rewritten active all s) clk)).1
  = Ok (decode_entries (rows_after active []))
  ∧ (getFromZSet no_faults RedisBookmarksActiveKey
       (mkState (rewritten active all s) clk)).1
    = Ok (decode_entries (rows_after active [])).
Proof.
  destruct (rewritten_indices active all s) as (Hactive & Hindex & _ & _).
  split.
  - rewrite getAllBookmarks_ok. cbn [fst store].
    rewrite store_ZRange_rows; [by rewrite Hindex|].
    unfold rewritten. apply store_put_all_no_set; [key_ne|].
    intros vs. by rewrite lookup_delete_ne, lookup_delete_eq by key_ne.
  - rewrite getFromZSet_unfold. cbn [fst].
    unfold ZRangeWithScores. rewrite redis_read_ok. cbn [fst store].
    rewrite store_ZRange_rows; [by rewrite Hactive|].
    unfold rewritten.
    eapply holds_no_set_other; [apply store_put_all_other; key_ne|].
    eapply holds_no_set_other;
      [rewrite !lookup_delete_ne by key_ne; apply store_put_all_other; key_ne|].
    apply store_put_all_no_set; [key_ne|].
    intros vs. by rewrite !lookup_delete_ne, lookup_delete_eq by key_ne.
Qed.

(** X5. After a successful [clean] the combined index mirrors the active
    partition: the two indices hold the same rows, the two URL sets the
    same URLs, and a full scan (what [check] and the next [clean] read)
    returns what the default listing returns. *)
Theorem clean_combined_mirrors_active choices c st bookmarks :
  (getAllBookmarks no_faults st).1 = Ok bookmarks →
  bookmarks ≠ [] →
  0 < flag_concurrency c →
  let st' := (cleanBookmarks no_faults net choices c st).2 in
  index_rows (store st') RedisBookmarksKey = index_rows (store st') RedisBookmarksActiveKey
  ∧ url_set (store st') RedisURLSetKey = url_set (store st') RedisURLSetActive
  ∧ (getAllBookmarks no_faults st').1
    = (getFromZSet no_faults RedisBookmarksActiveKey st').1
  ∧ (flag_include_dead c = false →
     ∃ listed, (listBookmarks no_faults c st').1 = Done listed
               ∧ (getAllBookmarks no_faults st').1 = Ok listed).
Proof.
  intros Hread Hne Hpos.
  rewrite (cleanBookmarks_ok net choices c st bookmarks Hread Hne)
    by (by apply prober_starts_pos).
  cbv zeta. cbn [snd store].
  set (active := healthy_in_order net (flag_timeout c) (removeDuplicates bookmarks)).
  destruct (rewritten_indices active bookmarks (store st)) as (Ha & Hi & _ & Hu).
  destruct (rewritten_url_sets active bookmarks (store st)) as [Hua _].
  match goal with
  | |- context [mkState _ ?clk] =>
      destruct (rewritten_scans active bookmarks (store st) clk) as [Hscan Hscan']
  end.
  split; [by rewrite Ha, Hi|]. split; [by rewrite Hu, Hua|].
  split; [by rewrite Hscan, Hscan'|].
  intros Hdead. eexists. split; [|exact Hscan].
  unfold listBookmarks. rewrite Hdead, st_bind_eq, Hscan'. done.
Qed.

(** X6. After a successful [clean] on records the codec reads back, the next
    full scan returns exactly the records that were kept, up to order: so
    the next [check] finds no duplicate, and no URL of the dead set is
    among the records the next [check] or [clean] works on. *)
Theorem clean_leaves_kept_records choices c st bookmarks :
  (getAllBookmarks no_faults st).1 = Ok bookmarks →
  bookmarks ≠ [] →
  0 < flag_concurrency c →
  reads_back bookmarks →
  let st' := (cleanBookmarks no_faults net choices c st).2 in
  ∃ bookmarks',
    (getAllBookmarks no_faults st').1 = Ok bookmarks'
    ∧ bookmarks' ≡ₚ healthy_in_order net (flag_timeout c) (removeDuplicates bookmarks)
    ∧ findDuplicates bookmarks' = []
    ∧ removeDuplicates bookmarks' = bookmarks'
    ∧ url_set (store st') RedisURLSetDead ## urls_of bookmarks'.
Proof.
  intros Hread Hne Hpos Hback.
  rewrite (cleanBookmarks_ok net choices c st bookmarks Hread Hne)
    by (by apply prober_starts_pos).
  cbv zeta. cbn [snd store].
  set (active := healthy_in_order net (flag_timeout c) (removeDuplicates bookmarks)).
  assert (active `sublist_of` bookmarks) as Hsub.
  { transitivity (removeDuplicates bookmarks).
    - apply healthy_in_order_sublist.
    - rewrite removeDuplicates_first_seen. apply first_seen_sublist. }
  assert (NoDup (URL <$> active)) as Hnd.
  { eapply sublist_NoDup; [apply (first_seen_NoDup ∅ bookmarks)|].
    rewrite <- removeDuplicates_first_seen.
    apply fmap_sublist, healthy_in_order_sublist. }
  pose proof (reads_back_sublist _ _ Hsub Hback) as Hback'.
  match goal with
  | |- context [mkState _ ?clk] =>
      destruct (rewritten_scans active bookmarks (store st) clk) as [Hscan _]
  end.
  exists (decode_entries (rows_after active [])).
  assert (decode_entries (rows_after active []) ≡ₚ active) as Hperm.
  { rewrite decode_entries_omap.
    rewrite (rows_after_perm active []); [| |].
    - rewrite app_nil_r, reads_back_parse.
      + apply reverse_Permutation.
      + unfold reads_back. by apply Forall_reverse.
    - by apply reads_back_NoDup.
    - intros bm _. apply not_elem_of_nil. }
  assert (NoDup (URL <$> decode_entries (rows_after active []))) as Hnd'
    by (by rewrite Hperm).
  split; [done|]. split; [done|]. split; [|split].
  - by apply findDuplicates_nil_iff.
  - rewrite removeDuplicates_first_seen. apply first_seen_id; [done|]. by intros bm _.
  - destruct (rewritten_url_sets active bookmarks (store st)) as [_ ->].
    rewrite dead_of_urls. unfold urls_of at 3. rewrite Hperm.
    fold (urls_of active). set_solver.
Qed.
End AfterClean.


(** ** The summary of [clean] *)

Lemma urls_of_size (l : list Bookmark) :
  NoDup (URL <$> l) → size (urls_of l) = length l.
Proof.
  intros Hnd. unfold urls_of. rewrite size_list_to_set by done. apply length_fmap.
Qed.

Section Summary.
Context `{Codec, NetHttp}.
Variable net : Z → nat → Client.

(** X7. The three numbers [clean] prints are non-negative and add up to the
    number of records read; the number of bookmarks remaining is the size
    of the active URL set it leaves, and the number of dead bookmarks
    removed is the size of the dead URL set. *)
Theorem clean_summary_adds_up choices c st bookmarks :
  (getAllBookmarks no_faults st).1 = Ok bookmarks →
  bookmarks ≠ [] →
  0 < flag_concurrency c →
  ∃ removedDuplicates removedDead remaining,
    (cleanBookmarks no_faults net choices c st).1
    = Done (Cleaned removedDuplicates removedDead remaining)
    ∧ 0 ≤ removedDuplicates ∧ 0 ≤ removedDead ∧ 0 ≤ remaining
    ∧ removedDuplicates + removedDead + remaining = Z.of_nat (length bookmarks)
    ∧ remaining
      = Z.of_nat (size (url_set (store (cleanBookmarks no_faults net choices c st).2)
                          RedisURLSetActive))
    ∧ removedDead
      = Z.of_nat (size (url_set (store (cleanBookmarks no_faults net choices c st).2)
                          RedisURLSetDead)).
Proof.
  intros Hread Hne Hpos.
  rewrite (cleanBookmarks_ok net choices c st bookmarks Hread Hne)
    by (by apply prober_starts_pos).
  cbn [fst snd store].
  set (unique := removeDuplicates bookmarks).
  set (active := healthy_in_order net (flag_timeout c) unique).
  assert (unique `sublist_of` bookmarks) as Hsub1
    by (unfold unique; rewrite removeDuplicates_first_seen; apply first_seen_sublist).
  assert (active `sublist_of` unique) as Hsub2 by apply healthy_in_order_sublist.
  assert (NoDup (URL <$> unique)) as Hnd1
    by (unfold unique; rewrite removeDuplicates_first_seen; apply first_seen_NoDup).
  assert (NoDup (URL <$> active)) as Hnd2
    by (eapply sublist_NoDup; [exact Hnd1|by apply fmap_sublist]).
  pose proof (sublist_length _ _ Hsub1). pose proof (sublist_length _ _ Hsub2).
  destruct (rewritten_url_sets active bookmarks (store st)) as [-> ->].
  do 3 eexists. split; [done|].
  split; [lia|]. split; [lia|]. split; [lia|]. split; [lia|].
  split; [by rewrite urls_of_size|].
  rewrite dead_of_urls, <- (removeDuplicates_urls bookmarks). fold unique.
  rewrite size_difference by (by apply urls_of_sublist).
  rewrite !urls_of_size by done. lia.
Qed.
End Summary.

(** ** Purge and revive *)

Section DeadFacts.
Context `{Codec}.

Lemma deadPurgeCmd_ok c st :
  deadPurgeCmd no_faults c st
  = (Done (), mkState (delete RedisURLSetDead (delete RedisBookmarksDeadKey (store st)))
                (S (S (clock st)))).
Proof. unfold deadPurgeCmd. do 2 run_step Del_ok. done. Qed.

Lemma revived_dead_index (bm : Bookmark) (s : Store) :
  revived bm s !! RedisBookmarksDeadKey = s !! RedisBookmarksDeadKey.
Proof.
  unfold revived.
  rewrite store_ZAdd_other, store_SRem_other, store_SAdd_other, store_ZAdd_other
    by key_ne. done.
Qed.

Lemma revived_url_set (bm : Bookmark) (s : Store) :
  revived bm s !! RedisURLSetKey = s !! RedisURLSetKey.
Proof.
  unfold revived.
  rewrite store_ZAdd_other, store_SRem_other, store_SAdd_other, store_ZAdd_other
    by key_ne. done.
Qed.

Lemma getFromZSet_ok zkey st :
  getFromZSet no_faults zkey st
  = (match store_ZRange zkey (store st) with
     | Ok rows => Ok (decode_entries rows)
     | Error err => Error err
     end, mkState (store st) (S (clock st))).
Proof.
  unfold getFromZSet, ZRangeWithScores. rewrite st_bind_eq, redis_read_ok.
  cbn [fst snd]. by destruct (store_ZRange zkey (store st)).
Qed.

(** X8. [dead purge] always reports success; when its commands reach the
    server, [dead show] then lists nothing, the dead URL set is empty,
    every other key is as before, and [dead revive] of any URL fails with
    "url not found in dead list" and writes nothing. *)
Theorem purge_empties_dead_partition faults c c' st url rest :
  Args c' = url :: rest →
  (deadPurgeCmd faults c st).1 = Done ()
  ∧ (let st' := (deadPurgeCmd no_faults c st).2 in
     (deadShowCmd no_faults c st').1 = Done []
     ∧ url_set (store st') RedisURLSetDead = ∅
     ∧ (∀ k, k ≠ RedisBookmarksDeadKey → k ≠ RedisURLSetDead →
             store st' !! k = store st !! k)
     ∧ (deadReviveCmd no_faults c' st').1
       = Failed (ExitError "url not found in dead list" 1)
     ∧ store (deadReviveCmd no_faults c' st').2 = store st').
Proof.
  intros Hargs. split.
  - unfold deadPurgeCmd. by rewrite !st_bind_eq.
  - rewrite deadPurgeCmd_ok. cbv zeta. cbn [snd store].
    set (s' := delete RedisURLSetDead (delete RedisBookmarksDeadKey (store st))).
    assert (s' !! RedisBookmarksDeadKey = None) as Hgone.
    { unfold s'. rewrite lookup_delete_ne by key_ne. apply lookup_delete_eq. }
    assert (∀ clk, getFromZSet no_faults RedisBookmarksDeadKey (mkState s' clk)
                   = (Ok [], mkState s' (S clk))) as Hscan.
    { intros clk. rewrite getFromZSet_ok. cbn [store clock].
      unfold store_ZRange. by rewrite Hgone. }
    split; [|split; [|split; [|split]]].
    + unfold deadShowCmd. by rewrite st_bind_eq, Hscan.
    + apply url_set_absent. apply lookup_delete_eq.
    + intros k Hk1 Hk2. unfold s'. by rewrite !lookup_delete_ne.
    + unfold deadReviveCmd. by rewrite Hargs, st_bind_eq, Hscan.
    + unfold deadReviveCmd. by rewrite Hargs, st_bind_eq, Hscan.
Qed.

(** X9. A revive that succeeded can be repeated: the row stays in the dead
    index, so [dead show] lists what it listed before and a second
    [dead revive] of the same URL succeeds again; and the revived URL is
    not added to the URL set of the combined index. *)
Theorem revive_leaves_dead_row c st :
  (deadReviveCmd no_faults c st).1 = Done () →
  let st' := (deadReviveCmd no_faults c st).2 in
  (deadShowCmd no_faults c st').1 = (deadShowCmd no_faults c st).1
  ∧ (deadReviveCmd no_faults c st').1 = Done ()
  ∧ store st' !! RedisURLSetKey = store st !! RedisURLSetKey.
Proof.
  unfold deadReviveCmd. destruct (Args c) as [|url rest]; [done|].
  rewrite !st_bind_eq, getFromZSet_ok. cbn [fst snd].
  set (dead := or_nil match store_ZRange RedisBookmarksDeadKey (store st) with
                      | Ok rows => Ok (decode_entries rows)
                      | Error err => Error err
                      end).
  rewrite revive_scan_find.
  destruct (find (has_url url) dead) as [bm|] eqn:Hfind; [|done].
  intros _. cbv zeta. cbn [fst snd]. rewrite revive_entry_ok. cbn [fst snd store clock].
  assert (∀ clk, getFromZSet no_faults RedisBookmarksDeadKey
                   (mkState (revived bm (store st)) clk)
                 = ((getFromZSet no_faults RedisBookmarksDeadKey st).1,
                    mkState (revived bm (store st)) (S clk))) as Hscan.
  { intros clk. rewrite !getFromZSet_ok. cbn [fst store clock].
    unfold store_ZRange. by rewrite revived_dead_index. }
  split; [|split].
  - unfold deadShowCmd. rewrite !st_bind_eq, Hscan. cbn [fst snd].
    by destruct (getFromZSet no_faults RedisBookmarksDeadKey st).1.
  - rewrite Hscan. cbn [fst snd]. rewrite getFromZSet_ok. cbn [fst].
    fold dead. rewrite revive_scan_find, Hfind. done.
  - apply revived_url_set.
Qed.
End DeadFacts.


(** ** Search *)

Section SearchFacts.
Context `{Codec, Strings}.

Lemma filter_loop (q : string) (wantTags : gset string) (items acc : list Bookmark) :
  fold_left
    (λ out bm,
       if negb (bool_decide (q = EmptyString))
          && negb (strings_Contains (strings_ToLower (Title bm)) q)
          && negb (strings_Contains (strings_ToLower (Description bm)) q)
       then out
       else if negb (bool_decide (wantTags = ∅))
               && negb (forallb
                          (λ wt, existsb (λ t, bool_decide (strings_ToLower t = wt)) (Tags bm))
                          (elements wantTags))
       then out
       else out ++ [bm])
    items acc
  = acc ++ filter (λ bm, query_matches q wantTags bm = true) items.
Proof.
  revert acc. induction items as [|bm items IH]; intros acc.
  - simpl. by rewrite app_nil_r.
  - cbn [fold_left]. rewrite IH, filter_cons.
    destruct (negb (bool_decide (q = EmptyString))
              && negb (strings_Contains (strings_ToLower (Title bm)) q)
              && negb (strings_Contains (strings_ToLower (Description bm)) q)) eqn:E1.
    + assert (query_matches q wantTags bm = false) as Hno
        by (unfold query_matches; by rewrite E1).
      by rewrite decide_False by congruence.
    + destruct (negb (bool_decide (wantTags = ∅))
                && negb (forallb
                           (λ wt, existsb (λ t, bool_decide (strings_ToLower t = wt))
                                    (Tags bm))
                           (elements wantTags))) eqn:E2.
      * assert (query_matches q wantTags bm = false) as Hno
          by (unfold query_matches; by rewrite E1, E2).
        by rewrite decide_False by congruence.
      * assert (query_matches q wantTags bm = true) as Hyes
          by (unfold query_matches; by rewrite E1, E2).
        rewrite decide_True by done. by rewrite <- app_assoc.
Qed.

Lemma filterByQueryTags_filter (items : list Bookmark) (q : string) (tags : list string) :
  filterByQueryTags items q tags
  = filter (λ bm, query_matches (strings_ToLower (strings_TrimSpace q))
                    (list_to_set (strings_ToLower <$> tags)) bm = true) items.
Proof. unfold filterByQueryTags. by rewrite filter_loop. Qed.

(** X10. [filterByQueryTags] keeps the items in their order and keeps exactly
    those that pass the query and tag tests; with a query that trims and
    lowers to the empty string and no tag it keeps every item. *)
Theorem filterByQueryTags_selects (items : list Bookmark) (q : string) (tags : list string) :
  filterByQueryTags items q tags `sublist_of` items
  ∧ (∀ bm, bm ∈ filterByQueryTags items q tags
           ↔ bm ∈ items
             ∧ query_matches (strings_ToLower (strings_TrimSpace q))
                 (list_to_set (strings_ToLower <$> tags)) bm = true)
  ∧ (strings_ToLower (strings_TrimSpace q) = EmptyString → tags = [] →
     filterByQueryTags items q tags = items).
Proof.
  rewrite filterByQueryTags_filter. split; [apply sublist_filter|]. split.
  - intros bm. rewrite list_elem_of_filter. tauto.
  - intros Hq ->. rewrite Hq. simpl.
    induction items as [|bm items IH]; [done|].
    rewrite filter_cons, decide_True; [by f_equal|].
    unfold query_matches. rewrite !bool_decide_eq_true_2 by done. done.
Qed.

Lemma search_limit_facts (pool filtered : list Bookmark) (limit : Z) :
  filtered `sublist_of` pool →
  let found :=
    if (0 <? limit) && (limit <? Z.of_nat (length filtered))
    then take (Z.to_nat limit) filtered else filtered in
  found `sublist_of` pool
  ∧ (∀ bm, bm ∈ found → bm ∈ filtered)
  ∧ (0 < limit → Z.of_nat (length found) ≤ limit)
  ∧ (limit ≤ 0 → found = filtered).
Proof.
  intros Hsub. cbv zeta.
  destruct (Z.ltb_spec 0 limit) as [Hpos|Hnon]; cbn [andb].
  - destruct (Z.ltb_spec limit (Z.of_nat (length filtered))) as [Hlong|Hshort].
    + split; [|split; [|split]].
      * transitivity filtered; [apply sublist_take|done].
      * intros bm Hin. by eapply elem_of_sublist; [|apply sublist_take].
      * intros _. rewrite length_take. lia.
      * lia.
    + split; [done|]. split; [done|]. split; [lia|done].
  - split; [done|]. split; [done|]. split; [lia|done].
Qed.

(** X11. [search] never fails, whatever the connection does: it returns a list
    taken in order from the active records followed, with
    [--include-dead], by the dead ones (a scan that failed counting as
    empty); every record returned passes the filter; and with a positive
    [--limit] the list is no longer than the limit. *)
Theorem search_returns_bounded_matches faults c st :
  let active := or_nil (getFromZSet faults RedisBookmarksActiveKey st).1 in
  let dead :=
    or_nil (getFromZSet faults RedisBookmarksDeadKey
              (getFromZSet faults RedisBookmarksActiveKey st).2).1 in
  let pool := active ++ (if flag_include_dead c then dead else []) in
  ∃ found,
    (searchBookmarksCmd faults c st).1 = Done found
    ∧ found `sublist_of` pool
    ∧ (∀ bm, bm ∈ found → bm ∈ filterByQueryTags pool (flag_q c) (flag_tag c))
    ∧ (0 < flag_limit c → Z.of_nat (length found) ≤ flag_limit c)
    ∧ (flag_limit c ≤ 0 → found = filterByQueryTags pool (flag_q c) (flag_tag c)).
Proof.
  cbv zeta. unfold searchBookmarksCmd.
  destruct (flag_include_dead c).
  - rewrite !st_bind_eq. unfold st_ret. cbn [fst snd].
    eexists. split; [done|]. apply search_limit_facts.
    rewrite filterByQueryTags_filter. apply sublist_filter.
  - rewrite !st_bind_eq. unfold st_ret. cbn [fst snd]. rewrite app_nil_r.
    eexists. split; [done|]. apply search_limit_facts.
    rewrite filterByQueryTags_filter. apply sublist_filter.
Qed.
End SearchFacts.

(** ** [saveBookmarks] *)

Section SaveFacts.
Context `{Codec}.

(** X12. [saveBookmarks] always returns nil. When its commands reach the
    server it leaves in the combined index the rows of the given records
    and in its URL set their URLs, and touches no other key; these are the
    rows and the URLs the classified rewrite leaves there for the same
    active records. *)
Theorem saveBookmarks_replaces_combined_index faults bookmarks all st (s : Store) :
  (saveBookmarks faults bookmarks st).1 = Ok ()
  ∧ (let s' := store (saveBookmarks no_faults bookmarks st).2 in
     index_rows s' RedisBookmarksKey = rows_after bookmarks []
     ∧ url_set s' RedisURLSetKey = urls_of bookmarks
     ∧ (∀ k, k ≠ RedisBookmarksKey → k ≠ RedisURLSetKey → s' !! k = store st !! k)
     ∧ index_rows s' RedisBookmarksKey
       = index_rows (rewritten bookmarks all s) RedisBookmarksKey
     ∧ url_set s' RedisURLSetKey = url_set (rewritten bookmarks all s) RedisURLSetKey).
Proof.
  split.
  - unfold saveBookmarks. by rewrite !st_bind_eq.
  - cbv zeta. unfold saveBookmarks.
    do 2 run_step Del_ok. run_step for_each_put_ok. unfold st_ret. cbn [snd store].
    destruct (rewritten_indices bookmarks all s) as (_ & Hi & _ & Hu).
    rewrite Hi, Hu.
    assert (index_rows
              (store_put_all RedisBookmarksKey RedisURLSetKey bookmarks
                 (delete RedisURLSetKey (delete RedisBookmarksKey (store st))))
              RedisBookmarksKey = rows_after bookmarks []) as Hrows.
    { rewrite store_put_all_rows.
      + f_equal. unfold index_rows.
        by rewrite lookup_delete_ne, lookup_delete_eq by key_ne.
      + key_ne.
      + intros vs. by rewrite lookup_delete_ne, lookup_delete_eq by key_ne. }
    assert (url_set
              (store_put_all RedisBookmarksKey RedisURLSetKey bookmarks
                 (delete RedisURLSetKey (delete RedisBookmarksKey (store st))))
              RedisURLSetKey = urls_of bookmarks) as Hurls.
    { rewrite store_put_all_url_set.
      + rewrite url_set_absent; [set_solver|]. apply lookup_delete_eq.
      + key_ne.
      + apply holds_no_zset_absent. apply lookup_delete_eq. }
    split; [done|]. split; [done|]. split; [|done].
    intros k Hk1 Hk2. rewrite store_put_all_other by done.
    by rewrite !lookup_delete_ne.
Qed.
End SaveFacts.


(** ** [check] against [clean] *)

Section CheckClean.
Context `{Codec, NetHttp}.
Variable net : Z → nat → Client.

(** X13. On a collection without duplicate URLs, for the same answers of the
    network, [check] and [clean] agree: [check] reports no duplicate and
    the dead links, [clean] removes no duplicate and as many dead
    bookmarks as [check] reported, and the dead URL set it leaves holds
    the URLs of the reported links. *)
Theorem check_and_clean_agree choices choices' c st bookmarks :
  (getAllBookmarks no_faults st).1 = Ok bookmarks →
  bookmarks ≠ [] →
  0 < flag_concurrency c →
  NoDup (URL <$> bookmarks) →
  ∃ deadLinks,
    (checkBookmarks no_faults net choices c st).1
    = Done (Checked (length bookmarks) [] deadLinks)
    ∧ deadLinks ≡ₚ unhealthy_in_order net (flag_timeout c) bookmarks
    ∧ (cleanBookmarks no_faults net choices' c st).1
      = Done (Cleaned 0 (Z.of_nat (length deadLinks))
                (Z.of_nat (length bookmarks) - Z.of_nat (length deadLinks)))
    ∧ url_set (store (cleanBookmarks no_faults net choices' c st).2) RedisURLSetDead
      = urls_of deadLinks.
Proof.
  intros Hread Hne Hpos Hnd.
  pose proof (prober_starts_pos (flag_concurrency c) (length bookmarks) Hpos) as Hstart.
  assert (removeDuplicates bookmarks = bookmarks) as Hunique.
  { rewrite removeDuplicates_first_seen. apply first_seen_id; [done|]. by intros bm _. }
  destruct (checkDeadLinks net choices bookmarks (flag_concurrency c) (flag_timeout c))
    as [deadLinks|] eqn:Hcheck;
    [|unfold checkDeadLinks in Hcheck; by rewrite Hstart in Hcheck].
  pose proof (checkDeadLinks_perm net _ _ _ _ _ Hcheck) as Hperm.
  pose proof (healthy_unhealthy_split net (flag_timeout c) bookmarks) as Hsplit.
  exists deadLinks. split; [|split; [done|]].
  - unfold checkBookmarks. rewrite st_bind_eq, Hread.
    destruct bookmarks as [|bm bookmarks]; [done|]. cbn [length Nat.eqb].
    rewrite Hcheck. by rewrite (proj2 (findDuplicates_nil_iff _) Hnd).
  - rewrite (cleanBookmarks_ok net choices' c st bookmarks Hread Hne)
      by (by rewrite Hunique).
    rewrite Hunique. cbn [fst snd store].
    assert (length (healthy_in_order net (flag_timeout c) bookmarks) + length deadLinks
            = length bookmarks)%nat as Hlen
      by (rewrite Hperm, <- length_app; by rewrite Hsplit).
    split; [do 2 f_equal; lia|].
    destruct (rewritten_url_sets (healthy_in_order net (flag_timeout c) bookmarks)
                bookmarks (store st)) as [_ ->].
    rewrite dead_of_urls.
    assert (NoDup ((URL <$> healthy_in_order net (flag_timeout c) bookmarks)
                   ++ (URL <$> unhealthy_in_order net (flag_timeout c) bookmarks)))
      as Hnd' by (rewrite <- fmap_app; by rewrite Hsplit).
    apply NoDup_app in Hnd' as (_ & Hdisj & _).
    assert (∀ u, u ∈ URL <$> bookmarks
                 ↔ u ∈ URL <$> healthy_in_order net (flag_timeout c) bookmarks
                   ∨ u ∈ URL <$> unhealthy_in_order net (flag_timeout c) bookmarks)
      as Hall.
    { intros u. rewrite <- elem_of_app, <- fmap_app. by rewrite Hsplit. }
    assert (∀ u, u ∈ URL <$> deadLinks
                 ↔ u ∈ URL <$> unhealthy_in_order net (flag_timeout c) bookmarks)
      as Hdead by (intros u; by rewrite Hperm).
    apply set_eq. intros u. unfold urls_of.
    rewrite elem_of_difference, !elem_of_list_to_set, Hall, Hdead. split.
    + intros [[?|?] ?]; [done|done].
    + intros Hu. split; [by right|]. intros Hh. by apply (Hdisj u).
Qed.
End CheckClean.


(** ** The order of a listing *)

Lemma float64_of_int64_exact (x : Z) :
  Z.abs x < 2 ^ 53 → float64_of_int64 x = x.
Proof.
  intros Hsmall. unfold float64_of_int64.
  assert (Z.log2 (Z.abs x) < 53) as Hlog.
  { destruct (decide (Z.abs x = 0)) as [->|Hnz]; [done|].
    apply Z.log2_lt_pow2; lia. }
  destruct (Z.leb_spec (Z.log2 (Z.abs x) - 52) 0); [done|lia].
Qed.

Lemma sorted_sublist {A} (R : relation A) (l1 l2 : list A) :
  l1 `sublist_of` l2 → StronglySorted R l2 → StronglySorted R l1.
Proof.
  induction 1 as [|x l1 l2 Hsub IH|x l1 l2 Hsub IH]; intros Hsorted.
  - constructor.
  - apply StronglySorted_inv in Hsorted as [Hrest Hall]. constructor; [by apply IH|].
    rewrite Forall_forall in *. intros y Hy. apply Hall. by eapply elem_of_sublist.
  - apply StronglySorted_inv in Hsorted as [Hrest _]. by apply IH.
Qed.

Lemma zentry_ltb_score (p q : Z * string) :
  (zentry_ltb p q = true → p.1 ≤ q.1) ∧ (zentry_ltb p q = false → q.1 ≤ p.1).
Proof.
  unfold zentry_ltb. destruct (Z.ltb_spec p.1 q.1), (Z.eqb_spec p.1 q.1);
    simpl; split; intros; try done; lia.
Qed.

Lemma zinsert_sorted (p : Z * string) (l : list (Z * string)) :
  StronglySorted Z.le l.*1 → StronglySorted Z.le (zinsert p l).*1.
Proof.
  induction l as [|q l IH]; intros Hsorted.
  - simpl. repeat constructor.
  - cbn [zinsert]. destruct (zentry_ltb_score p q) as [Hlt Hge].
    rewrite fmap_cons in Hsorted.
    pose proof Hsorted as [Hrest Hall]%StronglySorted_inv.
    destruct (zentry_ltb p q).
    + rewrite !fmap_cons. constructor; [exact Hsorted|].
      constructor; [auto|].
      eapply Forall_impl; [exact Hall|]. intros z Hz. specialize (Hlt eq_refl). lia.
    + rewrite fmap_cons. constructor; [by apply IH|].
      rewrite (zinsert_perm p l), fmap_cons. constructor; [auto|done].
Qed.

Lemma zupsert_sorted (score : Z) (m : string) (l : list (Z * string)) :
  StronglySorted Z.le l.*1 → StronglySorted Z.le (zupsert score m l).*1.
Proof.
  intros Hsorted. unfold zupsert, zremove. apply zinsert_sorted.
  eapply sorted_sublist; [|exact Hsorted]. apply fmap_sublist, sublist_filter.
Qed.

Section ListingOrder.
Context `{Codec, NetHttp}.
Variable net : Z → nat → Client.

Lemma rows_after_sorted (bms : list Bookmark) (rows : list (Z * string)) :
  StronglySorted Z.le rows.*1 → StronglySorted Z.le (rows_after bms rows).*1.
Proof.
  unfold rows_after. revert rows. induction bms as [|bm bms IH]; intros rows Hs; [done|].
  cbn [fold_left]. by apply IH, zupsert_sorted.
Qed.

Lemma parse_rows_back (rows : list (Z * string)) :
  (∀ r, r ∈ rows → ∃ bm, r = row_of bm ∧ json_Unmarshal (json_Marshal bm) = Some bm) →
  row_of <$> omap parse_row rows = rows.
Proof.
  induction rows as [|r rows IH]; intros Hrows; [done|].
  destruct (Hrows r) as (bm & -> & Hback); [apply list_elem_of_here|].
  cbn [omap list_omap]. unfold parse_row at 1. simpl. rewrite Hback.
  rewrite fmap_cons. f_equal. apply IH. intros r Hr.
  by apply Hrows, list_elem_of_further.
Qed.

(** X14. After a successful [clean] on records the codec reads back, the
    default listing returns the kept records ordered by the score they
    are filed under, the float64 value of [created_at]; when every
    timestamp is below 2^53 in magnitude that is the order of
    [created_at] itself, oldest first. *)
Theorem clean_listing_sorted_by_creation choices c st bookmarks :
  (getAllBookmarks no_faults st).1 = Ok bookmarks →
  bookmarks ≠ [] →
  0 < flag_concurrency c →
  reads_back bookmarks →
  flag_include_dead c = false →
  ∃ listed,
    (listBookmarks no_faults c (cleanBookmarks no_faults net choices c st).2).1
    = Done listed
    ∧ listed ≡ₚ healthy_in_order net (flag_timeout c) (removeDuplicates bookmarks)
    ∧ StronglySorted Z.le (score_of <$> listed)
    ∧ (Forall (λ bm, Z.abs (CreatedAt bm) < 2 ^ 53) bookmarks →
       StronglySorted Z.le (CreatedAt <$> listed)).
Proof.
  intros Hread Hne Hpos Hback Hflag.
  rewrite (cleanBookmarks_ok net choices c st bookmarks Hread Hne)
    by (by apply prober_starts_pos).
  cbn [snd].
  set (active := healthy_in_order net (flag_timeout c) (removeDuplicates bookmarks)).
  assert (active `sublist_of` bookmarks) as Hsub.
  { transitivity (removeDuplicates bookmarks).
    - apply healthy_in_order_sublist.
    - rewrite removeDuplicates_first_seen. apply first_seen_sublist. }
  assert (NoDup (URL <$> active)) as Hnd.
  { eapply sublist_NoDup; [apply (first_seen_NoDup ∅ bookmarks)|].
    rewrite <- removeDuplicates_first_seen.
    apply fmap_sublist, healthy_in_order_sublist. }
  pose proof (reads_back_sublist _ _ Hsub Hback) as Hback'.
  match goal with
  | |- context [mkState _ ?clk] =>
      destruct (rewritten_scans active bookmarks (store st) clk) as [_ Hscan]
  end.
  exists (decode_entries (rows_after active [])).
  assert (rows_after active [] ≡ₚ row_of <$> reverse active) as Hrows.
  { rewrite (rows_after_perm active []); [by rewrite app_nil_r| |].
    - by apply reads_back_NoDup.
    - intros bm _. apply not_elem_of_nil. }
  assert (row_of <$> decode_entries (rows_after active []) = rows_after active [])
    as Hparsed.
  { rewrite decode_entries_omap. apply parse_rows_back. intros r Hr.
    rewrite Hrows in Hr. apply list_elem_of_fmap in Hr as (bm & -> & Hbm).
    exists bm. split; [done|].
    unfold reads_back in Hback'. rewrite Forall_forall in Hback'.
    apply Hback'. by apply elem_of_reverse. }
  assert (decode_entries (rows_after active []) ≡ₚ active) as Hperm.
  { rewrite decode_entries_omap, Hrows, reads_back_parse.
    - apply reverse_Permutation.
    - unfold reads_back. by apply Forall_reverse. }
  assert (StronglySorted Z.le (score_of <$> decode_entries (rows_after active [])))
    as Hsorted.
  { pose proof (rows_after_sorted active [] ltac:(constructor)) as Hs.
    rewrite <- Hparsed, <- list_fmap_compose in Hs. exact Hs. }
  split; [|split; [done|split; [done|]]].
  - unfold listBookmarks. rewrite Hflag, st_bind_eq, Hscan. done.
  - intros Hsmall.
    assert (score_of <$> decode_entries (rows_after active [])
            = CreatedAt <$> decode_entries (rows_after active [])) as <-; [|done].
    apply list_fmap_ext. intros i bm Hbm. unfold score_of.
    apply float64_of_int64_exact.
    rewrite Forall_forall in Hsmall. apply Hsmall.
    eapply elem_of_sublist; [|exact Hsub]. rewrite <- Hperm.
    by eapply list_elem_of_lookup_2.
Qed.
End ListingOrder.

(** * The properties at concrete inputs *)

Lemma scan_skips_malformed_witness :
  (ZRangeWithScores no_faults RedisBookmarksKey (mkState Scenario.dirty_store 0)).1
  = Ok [(0, "not json"); Scenario.row Scenario.b3]
  ∧ (getFromZSet (H:=Json.codec) no_faults RedisBookmarksKey
       (mkState Scenario.dirty_store 0)).1
    = Ok (omap (λ z, Json.decode z.2) [(0, "not json"); Scenario.row Scenario.b3]).
Proof.
  assert ((ZRangeWithScores no_faults RedisBookmarksKey
             (mkState Scenario.dirty_store 0)).1
          = Ok [(0, "not json"); Scenario.row Scenario.b3]) as Hrows
    by (vm_compute; reflexivity).
  split; [exact Hrows|].
  exact (proj1 (scan_skips_malformed (H:=Json.codec) no_faults RedisBookmarksKey
                  (mkState Scenario.dirty_store 0) _ Hrows)).
Defined.

Lemma removeDuplicates_first_wins_witness :
  removeDuplicates (removeDuplicates [Scenario.a1; Scenario.a2; Scenario.b3])
  = removeDuplicates [Scenario.a1; Scenario.a2; Scenario.b3].
Proof.
  exact (proj1 (removeDuplicates_first_wins [Scenario.a1; Scenario.a2; Scenario.b3])).
Defined.

Lemma urlHealthy_two_stage_witness :
  head_stage Scenario.fake_client "b" ∧ urlHealthy Scenario.fake_client "b" = true.
Proof.
  assert (head_stage Scenario.fake_client "b") as Hhead.
  { exists (mkResponse 200). split; [reflexivity|]. simpl. lia. }
  split; [exact Hhead|].
  exact (proj1 (urlHealthy_two_stage Scenario.fake_client "b") Hhead).
Defined.

Lemma removeDeadLinks_keeps_input_order_witness :
  0 < 20
  ∧ removeDeadLinks Scenario.fake_net [2; 0]%nat
      [Scenario.a1; Scenario.b3] 20 8000000000
    = Some (healthy_in_order Scenario.fake_net 8000000000 [Scenario.a1; Scenario.b3]).
Proof.
  assert (0 < 20) as Hpos by lia.
  split; [exact Hpos|].
  exact (proj1 (removeDeadLinks_keeps_input_order Scenario.fake_net [2; 0]%nat
                  [Scenario.a1; Scenario.b3] 20 8000000000 Hpos)).
Defined.

Lemma pool_busy_reachable : Pool.reachable 2 1 Scenario.pool_busy.
Proof.
  exists (Pool.mkPool (Pool.AtAdd 0) [Pool.Unspawned; Pool.Unspawned] 0 0).
  split; [reflexivity|].
  eapply rtc_l; [apply Pool.step_add|].
  eapply rtc_l; [apply Pool.step_send; lia|].
  eapply rtc_l; [apply Pool.step_go|].
  apply rtc_refl.
Defined.

Lemma probes_in_flight_bounded_witness :
  Pool.reachable 2 1 Scenario.pool_busy ∧ Pool.in_flight Scenario.pool_busy ≤ 1.
Proof.
  split; [exact pool_busy_reachable|].
  exact (proj1 (probes_in_flight_bounded 2 1 Scenario.pool_busy pool_busy_reachable)).
Defined.

Lemma clean_partitions_nonempty_input_witness :
  ∃ removedDuplicates removedDead remaining st',
    cleanBookmarks (H:=Json.codec) no_faults Scenario.fake_net [1]%nat
      Scenario.ctx Scenario.st0
    = (Done (Cleaned removedDuplicates removedDead remaining), st')
    ∧ partition_invariant [Scenario.a1; Scenario.a2; Scenario.b3] (store st').
Proof.
  apply (clean_partitions_nonempty_input (H:=Json.codec) Scenario.fake_net [1]%nat
           Scenario.ctx Scenario.st0 [Scenario.a1; Scenario.a2; Scenario.b3]).
  - vm_compute. reflexivity.
  - discriminate.
  - simpl. lia.
Defined.

Lemma rewrite_surfaces_only_read_failure_witness :
  (saveBookmarksClassified (H:=Json.codec) Scenario.third_command_lost
     [Scenario.b3] (mkState Scenario.store0 1)).1 = Ok ()
  ∧ clock (saveBookmarksClassified (H:=Json.codec) Scenario.third_command_lost
             [Scenario.b3] (mkState Scenario.store0 1)).2 = 16%nat.
Proof.
  pose proof (proj1 (rewrite_surfaces_only_read_failure (H:=Json.codec)
                       Scenario.fake_net Scenario.third_command_lost [] Scenario.ctx
                       [Scenario.b3] (mkState Scenario.store0 1))) as Hsave.
  vm_compute in Hsave. vm_compute. exact Hsave.
Defined.

Lemma revive_moves_one_record_witness :
  (deadReviveCmd (H:=Json.codec) no_faults Scenario.revive_ctx
     (mkState Scenario.cleaned_store 0)).1 = Done ()
  ∧ url_set
      (store (deadReviveCmd (H:=Json.codec) no_faults Scenario.revive_ctx
                (mkState Scenario.cleaned_store 0)).2) RedisURLSetDead
    = url_set Scenario.cleaned_store RedisURLSetDead ∖ {["a"]}.
Proof.
  destruct (proj1 (revive_moves_one_record (H:=Json.codec) no_faults Scenario.revive_ctx
                     (mkState Scenario.cleaned_store 0) "a" [] eq_refl)
              [Scenario.a1; Scenario.a2] Scenario.a1 eq_refl)
    as (Hdone & _ & _ & _ & _ & Hdead & _).
  - vm_compute. reflexivity.
  - reflexivity.
  - intros vs. vm_compute. discriminate.
  - intros z. vm_compute. discriminate.
  - intros z. vm_compute. discriminate.
  - intros vs. vm_compute. discriminate.
  - split; [exact Hdone|exact Hdead].
Defined.

Lemma scenario_read :
  (getAllBookmarks (H:=Json.codec) no_faults Scenario.st0).1
  = Ok [Scenario.a1; Scenario.a2; Scenario.b3].
Proof. vm_compute. reflexivity. Defined.

Lemma scenario_reads_back :
  reads_back (H:=Json.codec) [Scenario.a1; Scenario.a2; Scenario.b3].
Proof. unfold reads_back. repeat (constructor; [vm_compute; reflexivity|]). constructor. Defined.

Lemma scenario_concurrency : 0 < flag_concurrency Scenario.ctx.
Proof. simpl. lia. Defined.

Lemma scenario_nonempty : [Scenario.a1; Scenario.a2; Scenario.b3] ≠ [].
Proof. discriminate. Defined.

Lemma checkDeadLinks_complements_removeDeadLinks_witness :
  ∃ deadLinks activeBookmarks,
    checkDeadLinks Scenario.fake_net [1]%nat [Scenario.a1; Scenario.a2; Scenario.b3]
      20 8000000000 = Some deadLinks
    ∧ removeDeadLinks Scenario.fake_net [2]%nat [Scenario.a1; Scenario.a2; Scenario.b3]
        20 8000000000 = Some activeBookmarks
    ∧ deadLinks ≡ₚ unhealthy_in_order Scenario.fake_net 8000000000
                     [Scenario.a1; Scenario.a2; Scenario.b3]
    ∧ activeBookmarks ++ deadLinks ≡ₚ [Scenario.a1; Scenario.a2; Scenario.b3]
    ∧ (length activeBookmarks + length deadLinks
       = length [Scenario.a1; Scenario.a2; Scenario.b3])%nat.
Proof.
  apply (checkDeadLinks_complements_removeDeadLinks Scenario.fake_net [1]%nat [2]%nat
           [Scenario.a1; Scenario.a2; Scenario.b3] 20 8000000000).
  lia.
Defined.

Lemma pool_never_deadlocks_witness :
  ∃ st', Pool.step 2 1 Scenario.pool_busy st'.
Proof.
  apply (pool_never_deadlocks 2 1 Scenario.pool_busy).
  - lia.
  - exact pool_busy_reachable.
  - discriminate.
Defined.

Lemma pool_zero_capacity_blocks_witness :
  Pool.pc (Pool.mkPool (Pool.AtSend 0) [Pool.Unspawned] 0 1) ≠ Pool.AtReturn
  ∧ Pool.in_flight (Pool.mkPool (Pool.AtSend 0) [Pool.Unspawned] 0 1) = 0.
Proof.
  assert (Pool.reachable 1 0 (Pool.mkPool (Pool.AtSend 0) [Pool.Unspawned] 0 1)) as Hreach.
  { exists (Pool.mkPool (Pool.AtAdd 0) [Pool.Unspawned] 0 0). split; [reflexivity|].
    eapply rtc_l; [apply Pool.step_add|]. apply rtc_refl. }
  destruct (pool_zero_capacity_blocks 1 _ ltac:(lia) Hreach) as (Hpc & _ & Hflight & _).
  split; [exact Hpc|exact Hflight].
Defined.

Lemma clean_combined_mirrors_active_witness :
  index_rows
    (store (cleanBookmarks (H:=Json.codec) no_faults Scenario.fake_net [1]%nat
              Scenario.ctx Scenario.st0).2) RedisBookmarksKey
  = index_rows
      (store (cleanBookmarks (H:=Json.codec) no_faults Scenario.fake_net [1]%nat
                Scenario.ctx Scenario.st0).2) RedisBookmarksActiveKey.
Proof.
  exact (proj1 (clean_combined_mirrors_active (H:=Json.codec) Scenario.fake_net
                  [1]%nat Scenario.ctx Scenario.st0 _
                  scenario_read scenario_nonempty scenario_concurrency)).
Defined.

Lemma clean_leaves_kept_records_witness :
  ∃ bookmarks',
    (getAllBookmarks (H:=Json.codec) no_faults
       (cleanBookmarks (H:=Json.codec) no_faults Scenario.fake_net [1]%nat
          Scenario.ctx Scenario.st0).2).1 = Ok bookmarks'
    ∧ findDuplicates bookmarks' = [].
Proof.
  destruct (clean_leaves_kept_records (H:=Json.codec) Scenario.fake_net
              [1]%nat Scenario.ctx Scenario.st0 _
              scenario_read scenario_nonempty scenario_concurrency scenario_reads_back)
    as (bookmarks' & Hscan & _ & Hnone & _).
  exists bookmarks'. split; [exact Hscan|exact Hnone].
Defined.

Lemma clean_summary_adds_up_witness :
  ∃ removedDuplicates removedDead remaining,
    (cleanBookmarks (H:=Json.codec) no_faults Scenario.fake_net [1]%nat
       Scenario.ctx Scenario.st0).1
    = Done (Cleaned removedDuplicates removedDead remaining)
    ∧ removedDuplicates + removedDead + remaining = 3.
Proof.
  destruct (clean_summary_adds_up (H:=Json.codec) Scenario.fake_net
              [1]%nat Scenario.ctx Scenario.st0 _
              scenario_read scenario_nonempty scenario_concurrency)
    as (d1 & d2 & d3 & Hdone & _ & _ & _ & Hsum & _).
  exists d1, d2, d3. split; [exact Hdone|exact Hsum].
Defined.

Lemma purge_empties_dead_partition_witness :
  (deadPurgeCmd no_faults Scenario.ctx (mkState Scenario.cleaned_store 0)).1 = Done ()
  ∧ (deadShowCmd (H:=Json.codec) no_faults Scenario.ctx
       (deadPurgeCmd no_faults Scenario.ctx (mkState Scenario.cleaned_store 0)).2).1
    = Done [].
Proof.
  destruct (purge_empties_dead_partition (H:=Json.codec) no_faults Scenario.ctx
              Scenario.revive_ctx (mkState Scenario.cleaned_store 0) "a" [] eq_refl)
    as (Hdone & Hshow & _).
  split; [exact Hdone|exact Hshow].
Defined.

Lemma revive_leaves_dead_row_witness :
  (deadReviveCmd (H:=Json.codec) no_faults Scenario.revive_ctx
     (deadReviveCmd (H:=Json.codec) no_faults Scenario.revive_ctx
        (mkState Scenario.cleaned_store 0)).2).1 = Done ().
Proof.
  assert ((deadReviveCmd (H:=Json.codec) no_faults Scenario.revive_ctx
             (mkState Scenario.cleaned_store 0)).1 = Done ()) as Hfirst
    by (vm_compute; reflexivity).
  exact (proj1 (proj2 (revive_leaves_dead_row (H:=Json.codec) Scenario.revive_ctx
                         (mkState Scenario.cleaned_store 0) Hfirst))).
Defined.

Lemma filterByQueryTags_selects_witness :
  filterByQueryTags [Scenario.a1; Scenario.b3] " " [] = [Scenario.a1; Scenario.b3].
Proof.
  apply (proj2 (proj2 (filterByQueryTags_selects [Scenario.a1; Scenario.b3] " " []))).
  - reflexivity.
  - reflexivity.
Defined.

Lemma search_returns_bounded_matches_witness :
  ∃ found,
    (searchBookmarksCmd (H:=Json.codec) no_faults Scenario.search_ctx
       (mkState Scenario.search_store 0)).1 = Done found
    ∧ Z.of_nat (length found) ≤ 1.
Proof.
  destruct (search_returns_bounded_matches (H:=Json.codec) no_faults Scenario.search_ctx
              (mkState Scenario.search_store 0))
    as (found & Hdone & _ & _ & Hlimit & _).
  exists found. split; [exact Hdone|]. apply Hlimit. simpl. lia.
Defined.

Lemma distinct_read :
  (getAllBookmarks (H:=Json.codec) no_faults (mkState Scenario.distinct_store 0)).1
  = Ok [Scenario.a1; Scenario.b3].
Proof. vm_compute. reflexivity. Defined.

Lemma check_and_clean_agree_witness :
  ∃ deadLinks,
    (checkBookmarks (H:=Json.codec) no_faults Scenario.fake_net [1]%nat Scenario.ctx
       (mkState Scenario.distinct_store 0)).1
    = Done (Checked (length [Scenario.a1; Scenario.b3]) [] deadLinks)
    ∧ (cleanBookmarks (H:=Json.codec) no_faults Scenario.fake_net [0]%nat Scenario.ctx
         (mkState Scenario.distinct_store 0)).1
      = Done (Cleaned 0 (Z.of_nat (length deadLinks))
                (Z.of_nat (length [Scenario.a1; Scenario.b3])
                 - Z.of_nat (length deadLinks))).
Proof.
  destruct (check_and_clean_agree (H:=Json.codec) Scenario.fake_net [1]%nat [0]%nat
              Scenario.ctx (mkState Scenario.distinct_store 0) _ distinct_read)
    as (deadLinks & Hcheck & _ & Hclean & _).
  - discriminate.
  - exact scenario_concurrency.
  - simpl. repeat constructor; set_solver.
  - exists deadLinks. split; [exact Hcheck|exact Hclean].
Defined.

Lemma clean_listing_sorted_by_creation_witness :
  ∃ listed,
    (listBookmarks (H:=Json.codec) no_faults Scenario.ctx
       (cleanBookmarks (H:=Json.codec) no_faults Scenario.fake_net [1]%nat
          Scenario.ctx Scenario.st0).2).1 = Done listed
    ∧ StronglySorted Z.le (score_of <$> listed).
Proof.
  destruct (clean_listing_sorted_by_creation (H:=Json.codec) Scenario.fake_net
              [1]%nat Scenario.ctx Scenario.st0 _
              scenario_read scenario_nonempty scenario_concurrency scenario_reads_back
              eq_refl)
    as (listed & Hlist & _ & Hsorted & _).
  exists listed. split; [exact Hlist|exact Hsorted].
Defined.
